(** * android-linkify-js: link gathering and overlap resolution

    A shallow embedding of [src/linkify.ts], [src/LinkSpec.ts] and
    [src/log.ts], and the properties of the link-gathering engine that
    the specification states about them.

    Conventions of the embedding:
    - a JavaScript string is the list of its UTF-16 code units;
    - offsets, array indices and lengths that the code computes with
      [number] arithmetic are integers of [Z];
    - a function that may throw, or whose loop is driven by an external
      collaborator, returns an [outcome];
    - module-level mutable objects (the two [RegExp] constants with their
      [lastIndex], the [logErrorF] handler) live in an explicit [World]
      that every entry point threads through. *)

From Stdlib Require Import Strings.String Strings.Ascii.
From Stdlib Require Import List ZArith NArith Lia Bool Arith.
From Stdlib Require Import Sorting.Sorted Sorting.Permutation.
Import ListNotations.

Open Scope Z_scope.

(* ------------------------------------------------------------------ *)
(** ** JavaScript values *)

(** A string is its sequence of UTF-16 code units. *)
Definition jsstring := list N.

(** An ASCII literal as a JavaScript string. *)
Definition str (s : string) : jsstring :=
  map N_of_ascii (list_ascii_of_string s).

(** [s.length] as a [number]. *)
Definition jslength {A : Type} (l : list A) : Z := Z.of_nat (length l).

(** [arr[i]]: [undefined] (here [None]) outside of [0 .. length-1]. *)
Definition jsget {A : Type} (l : list A) (i : Z) : option A :=
  if i <? 0 then None else nth_error l (Z.to_nat i).

(** [s.charAt(i)]: the one-unit string at [i], or the empty string. *)
Definition charAt (s : jsstring) (i : Z) : jsstring :=
  match jsget s i with
  | Some c => [c]
  | None => []
  end.

(** [arr.splice(k, 1)] for an index [0 <= k]: the element at [k] is
    deleted, nothing happens when [k] is past the end. *)
Definition splice1 {A : Type} (l : list A) (k : Z) : list A :=
  firstn (Z.to_nat k) l ++ skipn (S (Z.to_nat k)) l.

(** Equality of strings, [a == b] on two strings. *)
Definition jsstring_eqb (a b : jsstring) : bool :=
  if list_eq_dec N.eq_dec a b then true else false.

(** What running a piece of code gives: a value, a thrown [TypeError]
    (a property read on [undefined]), or no answer within the allotted
    number of loop iterations. *)
Inductive outcome (A : Type) : Type :=
| Returned (a : A)
| Threw
| OutOfFuel.
Arguments Returned {A} a.
Arguments Threw {A}.
Arguments OutOfFuel {A}.

Definition bind {A B : Type} (m : outcome A) (k : A -> outcome B) : outcome B :=
  match m with
  | Returned a => k a
  | Threw => Threw
  | OutOfFuel => OutOfFuel
  end.

Notation "x <- m ;; k" := (bind m (fun x => k))
  (at level 61, m at next level, right associativity).
Notation "' pat <- m ;; k" := (bind m (fun x => match x with pat => k end))
  (at level 61, pat pattern, m at next level, right associativity).

(* ------------------------------------------------------------------ *)
(** ** LinkSpec.ts *)

Record LinkSpec : Type := mkLinkSpec {
  url : jsstring;
  start : Z;
  end_ : Z
}.

Module Prune.

(** The comparator [c] handed to [links.sort]. *)
Definition c (a b : LinkSpec) : Z :=
  if start a <? start b then -1
  else if start a >? start b then 1
  else if end_ a <? end_ b then 1
  else if end_ a >? end_ b then -1
  else 0.

(** [links.sort(c)].  [c] is a consistent comparator, so the result is
    the sorted permutation of the array, and the sort is stable; a stable
    sort has one possible result, computed here by insertion. *)
Fixpoint insert (x : LinkSpec) (l : list LinkSpec) : list LinkSpec :=
  match l with
  | [] => [x]
  | y :: l' => if c x y <=? 0 then x :: l else y :: insert x l'
  end.

Fixpoint sort (l : list LinkSpec) : list LinkSpec :=
  match l with
  | [] => []
  | x :: l' => insert x (sort l')
  end.

(** The variables of the sweep: the array, [len] and [i]. *)
Record state : Type := mkState {
  links : list LinkSpec;
  len : Z;
  i : Z
}.

(** One evaluation of the [while] condition and, when it holds, of the
    loop body. *)
Inductive step_result : Type :=
| Exit (s : state)
| Next (s : state)
| Throws.

Definition sweep_step (s : state) : step_result :=
  if i s <? len s - 1 then
    match jsget (links s) (i s), jsget (links s) (i s + 1) with
    | Some a, Some b =>
        let remove := -1 in
        let advance := Next (mkState (links s) (len s) (i s + 1)) in
        if (start a <=? start b) && (end_ a >? start b) then
          let remove :=
            if end_ b <=? end_ a then i s + 1
            else if (end_ a - start a) >? (end_ b - start b) then i s + 1
            else if (end_ a - start a) <? (end_ b - start b) then i s
            else remove in
          if negb (remove =? -1) then
            Next (mkState (splice1 (links s) remove) (len s - 1) (i s))
          else advance
        else advance
    | _, _ => Throws
    end
  else Exit s.

Fixpoint sweep_loop (fuel : nat) (s : state) : outcome state :=
  match fuel with
  | O => OutOfFuel
  | S fuel' =>
      match sweep_step s with
      | Exit s' => Returned s'
      | Next s' => sweep_loop fuel' s'
      | Throws => Threw
      end
  end.

(** The state in which the sweep starts on an array. *)
Definition initial (l : list LinkSpec) : state :=
  mkState l (jslength l) 0.

(** [pruneOverlaps(links)]: the array as the call leaves it.  Each
    iteration of the sweep moves the examined pair one element closer
    to the end of the array, so [length links] iterations and a last
    test of the condition always suffice ([sweep_loop_resolve]). *)
Definition pruneOverlaps (l : list LinkSpec) : outcome (list LinkSpec) :=
  s <- sweep_loop (S (length l)) (initial (sort l)) ;;
  Returned (links s).

(** *** The resolver in the specification's words *)

(** Sort order: by [start] ascending, for equal [start] by [end]
    descending. *)
Definition before (a b : LinkSpec) : Prop :=
  start a < start b \/ (start a = start b /\ end_ b <= end_ a).

(** [b] begins before [a] ends. *)
Definition conflicts (a b : LinkSpec) : bool :=
  (start a <=? start b) && (start b <? end_ a).

Definition span (a : LinkSpec) : Z := end_ a - start a.

(** The single left-to-right sweep over adjacent pairs: [a] is the
    element at the sweep index, [rest] what follows it. *)
Fixpoint resolve (a : LinkSpec) (rest : list LinkSpec) : list LinkSpec :=
  match rest with
  | [] => [a]
  | b :: rest' =>
      if conflicts a b then
        if end_ b <=? end_ a then resolve a rest'          (* b is contained *)
        else if span b <? span a then resolve a rest'      (* a strictly longer *)
        else if span a <? span b then resolve b rest'      (* b strictly longer *)
        else a :: resolve b rest'                          (* equal length *)
      else a :: resolve b rest'
  end.

Definition sweep_spec (l : list LinkSpec) : list LinkSpec :=
  match l with
  | [] => []
  | a :: rest => resolve a rest
  end.

(** [a] ends where [b] begins, or earlier. *)
Definition precedes (a b : LinkSpec) : Prop := end_ a <= start b.

(** Two spans do not intersect. *)
Definition disjoint (a b : LinkSpec) : Prop :=
  end_ a <= start b \/ end_ b <= start a.

(** No two annotations at distinct positions of [l] intersect. *)
Definition non_overlapping (l : list LinkSpec) : Prop :=
  forall j k a b, j <> k ->
    nth_error l j = Some a -> nth_error l k = Some b -> disjoint a b.

(** Two annotations of equal length that overlap without being the
    same span. *)
Definition equal_length_overlap (a b : LinkSpec) : bool :=
  (span a =? span b) && (start a <? start b) && (start b <? end_ a).

(** No two annotations of [l] have equal length and overlap partially. *)
Definition no_equal_length_overlap (l : list LinkSpec) : bool :=
  forallb (fun a => forallb (fun b => negb (equal_length_overlap a b)) l) l.

(** *** Runs of the sweep *)

(** The sweep at index [length prefix] of [prefix ++ a :: rest]. *)
Definition zip (prefix : list LinkSpec) (a : LinkSpec) (rest : list LinkSpec) : state :=
  mkState (prefix ++ a :: rest) (jslength (prefix ++ a :: rest)) (jslength prefix).

(** The state after one iteration on the pair [(a, b)], in the
    specification's words. *)
Definition after_pair (prefix : list LinkSpec) (a b : LinkSpec)
    (rest : list LinkSpec) : state :=
  if conflicts a b then
    if end_ b <=? end_ a then zip prefix a rest
    else if span b <? span a then zip prefix a rest
    else if span a <? span b then zip prefix b rest
    else zip (prefix ++ [a]) b rest
  else zip (prefix ++ [a]) b rest.


(** An iteration that deletes one element and keeps the index. *)
Definition removes_one (s s' : state) : Prop :=
  S (length (links s')) = length (links s) /\
  len s' = len s - 1 /\ i s' = i s.

(** An iteration that keeps the array and moves the index by one. *)
Definition advances (s s' : state) : Prop :=
  links s' = links s /\ len s' = len s /\ i s' = i s + 1.

(** [sweep_run s n t]: started in [s], the loop makes [n] iterations,
    each one a removal or an advance, and leaves through its condition
    in state [t]. *)
Inductive sweep_run : state -> nat -> state -> Prop :=
| run_exit s :
    sweep_step s = Exit s -> ~ i s < len s - 1 -> sweep_run s 0 s
| run_iter s s' n t :
    sweep_step s = Next s' -> removes_one s s' \/ advances s s' ->
    sweep_run s' n t -> sweep_run s (S n) t.

End Prune.

(* ------------------------------------------------------------------ *)
(** ** log.ts *)

(** The handler installed with [setLogError] is a collaborator of the
    caller; what it does with a message is confined to a sink of its
    own. *)
Definition Sink := list jsstring.
Definition LogErrorF := jsstring -> Sink -> Sink.

(** The module's [logErrorF] variable and the handler's sink.
    [reports] is a ghost trace: the messages [logError] was called
    with, oldest first, whether or not a handler is installed. *)
Record Log : Type := mkLog {
  logErrorF : option LogErrorF;
  sink : Sink;
  reports : list jsstring
}.

Definition setLogError (value : LogErrorF) (l : Log) : Log :=
  mkLog (Some value) (sink l) (reports l).

Definition logError (text : jsstring) (l : Log) : Log :=
  let l := mkLog (logErrorF l) (sink l) (reports l ++ [text]) in
  match logErrorF l with
  | Some f => mkLog (logErrorF l) (f text (sink l)) (reports l)
  | None => l
  end.

(* ------------------------------------------------------------------ *)
(** ** Regular expressions: the Pattern Provider *)

(** The match array [m] that [exec] returns: [m.index] and [m[0]]. *)
Record RegExpExecArray : Type := mkMatch {
  index : Z;
  matched : jsstring
}.

(** A [RegExp] object with the [g] flag.  [matcher s k] is the leftmost
    match of the expression in [s] that begins at or after offset [k];
    [lastIndex] is the object's mutable property. *)
Record RegExp : Type := mkRegExp {
  matcher : jsstring -> Z -> option RegExpExecArray;
  lastIndex : Z
}.

Definition setLastIndex (re : RegExp) (k : Z) : RegExp :=
  mkRegExp (matcher re) k.

(** [pattern.exec(s)] on a global expression; a negative [lastIndex]
    is read as 0. *)
Definition exec (re : RegExp) (s : jsstring) : option RegExpExecArray * RegExp :=
  let lastIndex := Z.max 0 (lastIndex re) in
  if jslength s <? lastIndex then (None, setLastIndex re 0)
  else
    match matcher re s lastIndex with
    | None => (None, setLastIndex re 0)
    | Some m => (Some m, setLastIndex re (index m + jslength (matched m)))
    end.

(** What the engine expects of a pattern: a match begins at or after
    the offset the search started from, lies inside the text, and is not
    empty. *)
Definition well_behaved (re : RegExp) : Prop :=
  forall s k m, 0 <= k -> matcher re s k = Some m ->
    k <= index m /\ 0 < jslength (matched m) /\
    index m + jslength (matched m) <= jslength s.

(* ------------------------------------------------------------------ *)
(** ** linkify.ts *)

Definition MatchFilter := jsstring -> Z -> Z -> bool.
Definition TransformFilter := RegExpExecArray -> jsstring -> jsstring.

Definition WEB_URLS : Z := 1.
Definition EMAIL_ADDRESSES : Z := 2.
Definition ALL : Z := Z.lor WEB_URLS EMAIL_ADDRESSES.

(** [s.indexOf(c)] for a one-unit string [c]: the first offset of [c]
    in [s], or -1. *)
Fixpoint indexOf (s : jsstring) (c : N) : Z :=
  match s with
  | [] => -1
  | x :: s' =>
      if N.eqb x c then 0
      else let r := indexOf s' c in if r =? -1 then -1 else r + 1
  end.

(** [s.substring(from, to)]: both ends are clamped to the string and
    swapped when out of order. *)
Definition substring (s : jsstring) (from to : Z) : jsstring :=
  let n := jslength s in
  let a := Z.min (Z.max from 0) n in
  let b := Z.min (Z.max to 0) n in
  firstn (Z.to_nat (Z.max a b - Z.min a b)) (skipn (Z.to_nat (Z.min a b)) s).

(** [s.substring(from)]. *)
Definition substringFrom (s : jsstring) (from : Z) : jsstring :=
  substring s from (jslength s).

Definition sUrlMatchFilter : MatchFilter := fun s start end_ =>
  if start =? 0 then true
  else if jsstring_eqb (charAt s (start - 1)) (str "@") then false
  else true.

Definition u202C : N := 8236.
Definition u202D : N := 8237.
Definition u202E : N := 8238.

Definition containsUnsupportedCharacters (text : jsstring) (l : Log) : bool * Log :=
  if negb (indexOf text u202C =? -1) then
    (true, logError (str "Unsupported character for applying links: u202C") l)
  else if negb (indexOf text u202D =? -1) then
    (true, logError (str "Unsupported character for applying links: u202D") l)
  else if negb (indexOf text u202E =? -1) then
    (true, logError (str "Unsupported character for applying links: u202E") l)
  else (false, l).

(** The value of type [LinkSpec[] | false] that the entry points
    return. *)
Inductive LinkResult : Type :=
| NoneFound                         (* false *)
| Links (links : list LinkSpec).

(** The [sensitivity] option of [localeCompare]. *)
Inductive sensitivity : Type := accent | case_.

Section Linkify.

(** The platform's collation and case mapping:
    [localeCompare a b o] is [a.localeCompare(b, undefined, { sensitivity: o })],
    [toLowerCase s] is [s.toLowerCase()]. *)
Variable localeCompare : jsstring -> jsstring -> sensitivity -> Z.
Variable toLowerCase : jsstring -> jsstring.

(** The [for] loop of [makeUrl] over what remains of [prefixes]: the
    resulting [url] and [hasPrefix]. *)
Fixpoint makeUrl_scan (url : jsstring) (prefixes : list jsstring) : jsstring * bool :=
  match prefixes with
  | [] => (url, false)
  | p :: rest =>
      if jslength url <? jslength p then makeUrl_scan url rest
      else
        let urlPrefixRange := substring url 0 (jslength p) in
        if localeCompare urlPrefixRange p accent =? 0 then
          (if negb (localeCompare urlPrefixRange p case_ =? 0)
           then p ++ substringFrom url (jslength p)
           else url, true)
        else makeUrl_scan url rest
  end.

Definition makeUrl (url : jsstring) (prefixes : list jsstring)
    (m : RegExpExecArray) (filter : option TransformFilter) : jsstring :=
  let url := match filter with Some f => f m url | None => url end in
  let '(url, hasPrefix) := makeUrl_scan url prefixes in
  if negb hasPrefix && (0 <? jslength prefixes) then
    match prefixes with
    | p0 :: _ => p0 ++ url
    | [] => url
    end
  else url.

(** [gatherLinks]: the array [links] and the [pattern] object as the
    call leaves them.  The loop runs as long as the pattern yields
    matches, so the number of iterations is bounded by [fuel]. *)
Fixpoint gatherLinks (fuel : nat) (links : list LinkSpec) (s : jsstring)
    (pattern : RegExp) (schemes : list jsstring)
    (matchFilter : option MatchFilter) (transformFilter : option TransformFilter)
    : outcome (list LinkSpec * RegExp) :=
  match fuel with
  | O => OutOfFuel
  | S fuel' =>
      match exec pattern s with
      | (None, pattern') => Returned (links, pattern')
      | (Some m, pattern') =>
          let start := index m in
          let end_ := start + jslength (matched m) in
          if match matchFilter with
             | None => true
             | Some f => f s start end_
             end
          then
            let url := makeUrl (matched m) schemes m transformFilter in
            let spec := mkLinkSpec url start end_ in
            gatherLinks fuel' (links ++ [spec]) s pattern' schemes
                        matchFilter transformFilter
          else
            gatherLinks fuel' links s pattern' schemes
                        matchFilter transformFilter
      end
  end.

(** The module-level state an [addAutoLinks] call works on: the two
    pattern constants of [patterns.ts] (distinct objects) and the log. *)
Record World : Type := mkWorld {
  AUTOLINK_WEB_URL : RegExp;
  AUTOLINK_EMAIL_ADDRESS : RegExp;
  log : Log
}.

(** [addAutoLinks(text, mask)]; [mask] is an integer, [None] when the
    argument is omitted, and [text] is a string (the [text != null]
    test always holds). *)
Definition addAutoLinks (fuel : nat) (text : jsstring) (mask : option Z)
    (w : World) : outcome (LinkResult * World) :=
  let mask := match mask with None => ALL | Some m => m end in
  let '(unsupported, l) := containsUnsupportedCharacters text (log w) in
  let w := mkWorld (AUTOLINK_WEB_URL w) (AUTOLINK_EMAIL_ADDRESS w) l in
  if unsupported then Returned (NoneFound, w)
  else if mask =? 0 then Returned (NoneFound, w)
  else
    let links := [] in
    '(links, w) <-
      (if negb (Z.land mask WEB_URLS =? 0) then
         '(links, re) <-
           gatherLinks fuel links text (AUTOLINK_WEB_URL w)
             [str "http://"; str "https://"; str "rtsp://"]
             (Some sUrlMatchFilter) None ;;
         Returned (links, mkWorld re (AUTOLINK_EMAIL_ADDRESS w) (log w))
       else Returned (links, w)) ;;
    '(links, w) <-
      (if negb (Z.land mask EMAIL_ADDRESSES =? 0) then
         '(links, re) <-
           gatherLinks fuel links text (AUTOLINK_EMAIL_ADDRESS w)
             [str "mailto:"] None None ;;
         Returned (links, mkWorld (AUTOLINK_WEB_URL w) re (log w))
       else Returned (links, w)) ;;
    links <- Prune.pruneOverlaps links ;;
    if jslength links =? 0 then Returned (NoneFound, w)
    else Returned (Links links, w).

(** The [while] loop of [addLinks]. *)
Fixpoint addLinks_loop (fuel : nat) (links : list LinkSpec) (spannable : jsstring)
    (pattern : RegExp) (schemesCopy : list jsstring)
    (matchFilter : option MatchFilter) (transformFilter : option TransformFilter)
    : outcome (list LinkSpec * RegExp) :=
  match fuel with
  | O => OutOfFuel
  | S fuel' =>
      match exec pattern spannable with
      | (None, pattern') => Returned (links, pattern')
      | (Some m, pattern') =>
          let start := index m in
          let end_ := index m + jslength (matched m) in
          let allowed := true in
          let allowed :=
            match matchFilter with
            | Some f => f spannable start end_
            | None => allowed
            end in
          if allowed then
            let url := makeUrl (matched m) schemesCopy m transformFilter in
            addLinks_loop fuel' (links ++ [mkLinkSpec url start end_]) spannable
                          pattern' schemesCopy matchFilter transformFilter
          else
            addLinks_loop fuel' links spannable
                          pattern' schemesCopy matchFilter transformFilter
      end
  end.

(** The scheme list [addLinks] hands to [makeUrl]. *)
Definition schemesCopy (defaultScheme : option jsstring)
    (schemes : option (list (option jsstring))) : list jsstring :=
  let defaultScheme := match defaultScheme with None => [] | Some d => d end in
  let schemes :=
    match schemes with
    | None => []
    | Some l => if jslength l <? 1 then [] else l
    end in
  [toLowerCase defaultScheme] ++
  map (fun scheme => match scheme with
                     | None => []
                     | Some x => toLowerCase x
                     end) schemes.

(** [addLinks(spannable, pattern, defaultScheme, schemes, matchFilter,
    transformFilter)]: the returned value, the caller's [pattern]
    object and the log as the call leaves them. *)
Definition addLinks (fuel : nat) (spannable : jsstring) (pattern : RegExp)
    (defaultScheme : option jsstring) (schemes : option (list (option jsstring)))
    (matchFilter : option MatchFilter) (transformFilter : option TransformFilter)
    (l : Log) : outcome (LinkResult * RegExp * Log) :=
  let '(unsupported, l) := containsUnsupportedCharacters spannable l in
  if unsupported then Returned (NoneFound, pattern, l)
  else
    '(links, pattern) <-
      addLinks_loop fuel [] spannable pattern
        (schemesCopy defaultScheme schemes) matchFilter transformFilter ;;
    Returned (Links links, pattern, l).

End Linkify.

(* ------------------------------------------------------------------ *)
(** ** Vocabulary of the specification *)

(** The text contains one of the bidirectional control characters. *)
Definition hasBidi (text : jsstring) : bool :=
  existsb (fun x => N.eqb x u202C || N.eqb x u202D || N.eqb x u202E) text.

(** The report for an unsupported code point. *)
Definition unsupportedMessage (x : N) : jsstring :=
  if N.eqb x u202C then str "Unsupported character for applying links: u202C"
  else if N.eqb x u202D then str "Unsupported character for applying links: u202D"
  else str "Unsupported character for applying links: u202E".

(** The first of U+202C, U+202D, U+202E, in this order, that occurs in
    the text. *)
Definition firstUnsupported (text : jsstring) : option N :=
  find (fun x => existsb (N.eqb x) text) [u202C; u202D; u202E].

(** How many times a message occurs in a list of reports. *)
Definition countReports (msg : jsstring) (l : list jsstring) : nat :=
  count_occ (list_eq_dec N.eq_dec) l msg.

(** The reports a call added to the log. *)
Definition newReports (before after : Log) : list jsstring :=
  skipn (length (reports before)) (reports after).

(** The scheme prefix [p] matches the leading characters of [text]
    without regard to case. *)
Definition prefix_matches
    (localeCompare : jsstring -> jsstring -> sensitivity -> Z)
    (text p : jsstring) : bool :=
  (length p <=? length text)%nat &&
  (localeCompare (firstn (length p) text) p accent =? 0).

(** Strings that are equal up to case and have the same case are the
    same string. *)
Definition collation_exact
    (localeCompare : jsstring -> jsstring -> sensitivity -> Z) : Prop :=
  forall x p, length x = length p ->
    localeCompare x p accent = 0 -> localeCompare x p case_ = 0 -> x = p.

(** The pattern yields no match in [s] that the filter accepts. *)
Definition no_accepted_match (re : RegExp) (f : option MatchFilter)
    (s : jsstring) : Prop :=
  forall k m, matcher re s k = Some m ->
    exists g, f = Some g /\
      g s (index m) (index m + jslength (matched m)) = false.

(** The successive matches of a pattern in [s]: the first one searched
    from offset [k], each next one from the end of the match before
    it, until the search fails; [n] bounds their number. *)
Fixpoint scan (n : nat) (find : jsstring -> Z -> option RegExpExecArray)
    (s : jsstring) (k : Z) : list RegExpExecArray :=
  match n with
  | O => []
  | S n' =>
      match find s k with
      | None => []
      | Some m => m :: scan n' find s (index m + jslength (matched m))
      end
  end.

(** The match filter, when there is one, accepts the span of [m]. *)
Definition accepts (f : option MatchFilter) (s : jsstring)
    (m : RegExpExecArray) : bool :=
  match f with
  | None => true
  | Some g => g s (index m) (index m + jslength (matched m))
  end.

(** The gathered annotations: one for each accepted match of [ms], in
    the order of the matches, with the span of the match and the URL
    [makeUrl] gives for the matched text. *)
Definition annotations
    (localeCompare : jsstring -> jsstring -> sensitivity -> Z)
    (s : jsstring) (schemes : list jsstring) (f : option MatchFilter)
    (tf : option TransformFilter) (ms : list RegExpExecArray) : list LinkSpec :=
  map (fun m => mkLinkSpec (makeUrl localeCompare (matched m) schemes m tf)
                           (index m) (index m + jslength (matched m)))
      (filter (accepts f s) ms).

(* ------------------------------------------------------------------ *)
(** ** A small platform for examples *)

Module Examples.

(** Collation and case mapping of ASCII text. *)
Definition asciiLower (x : N) : N :=
  if (N.leb 65 x && N.leb x 90)%bool then (x + 32)%N else x.

Definition asciiToLowerCase (s : jsstring) : jsstring := map asciiLower s.

Definition asciiCompare (a b : jsstring) (o : sensitivity) : Z :=
  match o with
  | accent =>
      if jsstring_eqb (asciiToLowerCase a) (asciiToLowerCase b) then 0 else 1
  | case_ => if jsstring_eqb a b then 0 else 1
  end.

(** A collation that, like the platform's, does not tell a fullwidth
    form (U+FF01 to U+FF5E) from its ASCII counterpart, at [accent]
    or at [case_] sensitivity, and is [asciiCompare] otherwise. *)
Definition widthFold (x : N) : N :=
  if (N.leb 65281 x && N.leb x 65374)%bool then (x - 65248)%N else x.

Definition widthCompare (a b : jsstring) (o : sensitivity) : Z :=
  asciiCompare (map widthFold a) (map widthFold b) o.

(** The text of the URL http://example.com with U+FF48, the fullwidth
    small letter h, for its first letter. *)
Definition fullwidthUrl : jsstring := 65352%N :: str "ttp://example.com".

(** The global pattern that matches one occurrence of the code unit
    [x]. *)
Definition unitPattern (x : N) : RegExp :=
  mkRegExp
    (fun s k =>
       let r := indexOf (skipn (Z.to_nat k) s) x in
       if r =? -1 then None else Some (mkMatch (k + r) [x]))
    0.

(** A pattern without any match. *)
Definition neverPattern : RegExp := mkRegExp (fun _ _ => None) 0.

(** A log with a handler that records what it is given. *)
Definition recordingLog : Log :=
  mkLog (Some (fun msg out => out ++ [msg])) [] [].

Definition span (a b : Z) : LinkSpec := mkLinkSpec [] a b.

(** Module state for the examples: the "web" pattern finds the letter
    b, the "email" pattern finds the at-sign. *)
Definition world : World :=
  mkWorld (unitPattern 98) (unitPattern 64) recordingLog.

Definition webSchemes : list jsstring :=
  [str "http://"; str "https://"; str "rtsp://"].

End Examples.

(* ------------------------------------------------------------------ *)
(** ** Further vocabulary *)

(** [r] is [l] with some elements deleted and the others in place. *)
Inductive subseq {A : Type} : list A -> list A -> Prop :=
| subseq_nil : subseq [] []
| subseq_skip x r l : subseq r l -> subseq r (x :: l)
| subseq_keep x r l : subseq r l -> subseq (x :: r) (x :: l).

(** A span that is not empty. *)
Definition positive (a : LinkSpec) : Prop := start a < end_ a.

(** [a] sorts before [b] and does not have the span of [b]. *)
Definition strictly_before (a b : LinkSpec) : Prop :=
  start a < start b \/ (start a = start b /\ end_ b < end_ a).

(** A span that is not empty and lies inside the text [s]. *)
Definition valid_span (s : jsstring) (a : LinkSpec) : Prop :=
  0 <= start a /\ start a < end_ a /\ end_ a <= jslength s.

(** [a]'s span contains [b]'s. *)
Definition covers (a b : LinkSpec) : Prop :=
  start a <= start b /\ end_ b <= end_ a.


(** The match filter, when there is one, accepts the span of [a]. *)
Definition accepted (mf : option MatchFilter) (s : jsstring) (a : LinkSpec) : Prop :=
  match mf with
  | None => True
  | Some f => f s (start a) (end_ a) = true
  end.


(** An annotation that [gatherLinks] makes of a match of the pattern
    in [s]: the span of the match, the URL [makeUrl] gives for the
    matched text, and a span the filter accepts. *)
Definition gathered_by
    (localeCompare : jsstring -> jsstring -> sensitivity -> Z)
    (s : jsstring) (find : jsstring -> Z -> option RegExpExecArray)
    (schemes : list jsstring) (mf : option MatchFilter)
    (tf : option TransformFilter) (a : LinkSpec) : Prop :=
  exists k m,
    find s k = Some m /\
    start a = index m /\
    end_ a = index m + jslength (matched m) /\
    url a = makeUrl localeCompare (matched m) schemes m tf /\
    accepted mf s a.

(* ------------------------------------------------------------------ *)
(** ** linkify.ts: the phone-number filter *)

Definition PHONE_NUMBER_MINIMUM_DIGITS : Z := 5.

Section Phone.

(** [isDigit] of [utils.ts], a file that is not among the sources:
    taken as a parameter. *)
Variable isDigit : jsstring -> bool.

(** The [for] loop of [sPhoneNumberMatchFilter] with [n] values of
    [i] still to visit (the loop visits [start], ..., [end - 1]). *)
Fixpoint sPhoneNumberMatchFilter_loop (n : nat) (s : jsstring)
    (i digitCount : Z) : bool :=
  match n with
  | O => false
  | S n' =>
      if isDigit (charAt s i) then
        let digitCount := digitCount + 1 in
        if digitCount >=? PHONE_NUMBER_MINIMUM_DIGITS then true
        else sPhoneNumberMatchFilter_loop n' s (i + 1) digitCount
      else sPhoneNumberMatchFilter_loop n' s (i + 1) digitCount
  end.

Definition sPhoneNumberMatchFilter : MatchFilter := fun s start end_ =>
  let digitCount := 0 in
  sPhoneNumberMatchFilter_loop (Z.to_nat (end_ - start)) s start digitCount.

(** The offsets [start], [start + 1], ... ([n] of them). *)
Fixpoint positions (start : Z) (n : nat) : list Z :=
  match n with
  | O => []
  | S n' => start :: positions (start + 1) n'
  end.

(** The number of offsets in [start .. end - 1] at which the text has
    a digit. *)
Definition digitsIn (s : jsstring) (start end_ : Z) : Z :=
  jslength (filter (fun i => isDigit (charAt s i))
                   (positions start (Z.to_nat (end_ - start)))).

End Phone.

(* ------------------------------------------------------------------ *)
(** * Properties of the overlap resolver *)

Module PruneFacts.
Import Prune.

(** Case analysis on the integer comparisons of the goal. *)
Ltac zbool :=
  repeat match goal with
  | |- context [?a >? ?b] => rewrite (Z.gtb_ltb a b)
  | |- context [?a <? ?b] => destruct (Z.ltb_spec a b)
  | |- context [?a <=? ?b] => destruct (Z.leb_spec a b)
  | |- context [?a =? ?b] => destruct (Z.eqb_spec a b)
  end.

(** *** The comparator and the sort *)

Lemma c_le_before a b : c a b <= 0 <-> before a b.
Proof. unfold c, before. zbool; lia. Qed.

Lemma before_trans a b d : before a b -> before b d -> before a d.
Proof. unfold before. lia. Qed.

Lemma before_total a b : before a b \/ before b a.
Proof. unfold before. lia. Qed.

Lemma before_start a b : before a b -> start a <= start b.
Proof. unfold before. lia. Qed.

Lemma insert_perm x l : Permutation (insert x l) (x :: l).
Proof.
  induction l as [|y l IH]; simpl; [reflexivity|].
  destruct (c x y <=? 0); [reflexivity|].
  rewrite IH. apply perm_swap.
Qed.

Lemma sort_perm l : Permutation (sort l) l.
Proof.
  induction l as [|x l IH]; simpl; [constructor|].
  rewrite insert_perm. now constructor.
Qed.

Lemma sort_length l : length (sort l) = length l.
Proof. apply Permutation_length, sort_perm. Qed.

Lemma insert_sorted x l :
  StronglySorted before l -> StronglySorted before (insert x l).
Proof.
  induction 1 as [|y l Hl IH Hy]; simpl.
  - repeat constructor.
  - destruct (Z.leb_spec (c x y) 0) as [Hc|Hc].
    + apply c_le_before in Hc.
      constructor; [now constructor|].
      constructor; [assumption|].
      eapply Forall_impl; [|exact Hy].
      intros z Hz. eapply before_trans; eassumption.
    + assert (Hyx : before y x).
      { destruct (before_total x y) as [Hb|Hb]; [|assumption].
        apply c_le_before in Hb. lia. }
      constructor; [assumption|].
      eapply Permutation_Forall; [symmetry; apply insert_perm|].
      now constructor.
Qed.

Lemma sort_sorted l : StronglySorted before (sort l).
Proof.
  induction l as [|x l IH]; simpl; [constructor|].
  now apply insert_sorted.
Qed.

Lemma sort_fixed l : StronglySorted before l -> sort l = l.
Proof.
  induction 1 as [|x l Hl IH Hx]; simpl; [reflexivity|].
  rewrite IH. destruct l as [|y l]; simpl; [reflexivity|].
  inversion Hx as [|? ? Hxy _]; subst.
  apply c_le_before in Hxy.
  destruct (Z.leb_spec (c x y) 0); [reflexivity|lia].
Qed.

(** *** The index loop and the recursive sweep *)

Lemma jslength_nonneg {A} (l : list A) : 0 <= jslength l.
Proof. unfold jslength. lia. Qed.

Lemma jslength_app {A} (l l' : list A) : jslength (l ++ l') = jslength l + jslength l'.
Proof. unfold jslength. rewrite length_app. lia. Qed.

Lemma jslength_cons {A} (x : A) l : jslength (x :: l) = jslength l + 1.
Proof. unfold jslength. simpl. lia. Qed.

Lemma jsget_mid {A} (prefix : list A) a rest :
  jsget (prefix ++ a :: rest) (jslength prefix) = Some a.
Proof.
  unfold jsget, jslength.
  destruct (Z.ltb_spec (Z.of_nat (length prefix)) 0); [lia|].
  rewrite Nat2Z.id, nth_error_app2 by lia.
  now rewrite Nat.sub_diag.
Qed.

Lemma jsget_mid1 {A} (prefix : list A) a b rest :
  jsget (prefix ++ a :: b :: rest) (jslength prefix + 1) = Some b.
Proof.
  replace (prefix ++ a :: b :: rest) with ((prefix ++ [a]) ++ b :: rest)
    by now rewrite <- app_assoc.
  replace (jslength prefix + 1) with (jslength (prefix ++ [a]))
    by (rewrite jslength_app, jslength_cons; reflexivity).
  apply jsget_mid.
Qed.

Lemma splice1_mid {A} (prefix : list A) a rest :
  splice1 (prefix ++ a :: rest) (jslength prefix) = prefix ++ rest.
Proof.
  unfold splice1, jslength. rewrite Nat2Z.id.
  rewrite firstn_app, Nat.sub_diag, firstn_all, app_nil_r by lia.
  rewrite skipn_app, skipn_all2 by lia.
  replace (S (length prefix) - length prefix)%nat with 1%nat by lia.
  reflexivity.
Qed.

Lemma splice1_mid1 {A} (prefix : list A) a b rest :
  splice1 (prefix ++ a :: b :: rest) (jslength prefix + 1) = prefix ++ a :: rest.
Proof.
  replace (prefix ++ a :: b :: rest) with ((prefix ++ [a]) ++ b :: rest)
    by now rewrite <- app_assoc.
  replace (jslength prefix + 1) with (jslength (prefix ++ [a]))
    by (rewrite jslength_app, jslength_cons; reflexivity).
  rewrite splice1_mid. now rewrite <- app_assoc.
Qed.

Lemma zip_snoc prefix a b rest :
  mkState (prefix ++ a :: b :: rest) (jslength (prefix ++ a :: b :: rest))
          (jslength prefix + 1) = zip (prefix ++ [a]) b rest.
Proof.
  unfold zip. rewrite (jslength_app prefix [a]), (jslength_cons a []).
  rewrite <- app_assoc. reflexivity.
Qed.

Lemma zip_drop prefix a b rest x :
  mkState (prefix ++ x :: rest) (jslength (prefix ++ a :: b :: rest) - 1)
          (jslength prefix) = zip prefix x rest.
Proof.
  unfold zip. f_equal.
  rewrite !jslength_app, !jslength_cons. lia.
Qed.

Lemma zip_len prefix a rest :
  len (zip prefix a rest) = jslength prefix + 1 + jslength rest.
Proof. unfold zip; simpl. rewrite jslength_app, jslength_cons. lia. Qed.

Lemma sweep_step_exit s : ~ i s < len s - 1 -> sweep_step s = Exit s.
Proof.
  intros H. unfold sweep_step.
  destruct (Z.ltb_spec (i s) (len s - 1)); [lia|reflexivity].
Qed.

Lemma zip_last prefix a : ~ i (zip prefix a []) < len (zip prefix a []) - 1.
Proof. rewrite zip_len. unfold zip, jslength; simpl. lia. Qed.

Lemma sweep_step_pair prefix a b rest :
  sweep_step (zip prefix a (b :: rest)) = Next (after_pair prefix a b rest).
Proof.
  unfold sweep_step, zip, after_pair; simpl.
  assert (Hlt : (jslength prefix <? jslength (prefix ++ a :: b :: rest) - 1) = true).
  { apply Z.ltb_lt. rewrite jslength_app, !jslength_cons.
    pose proof (jslength_nonneg rest). lia. }
  rewrite Hlt, jsget_mid, jsget_mid1.
  fold (zip prefix a (b :: rest)).
  rewrite zip_snoc.
  unfold conflicts, span.
  pose proof (jslength_nonneg prefix) as Hp.
  destruct (Z.leb_spec (start a) (start b)); simpl; [|reflexivity].
  rewrite Z.gtb_ltb.
  destruct (Z.ltb_spec (start b) (end_ a)); simpl; [|reflexivity].
  destruct (Z.leb_spec (end_ b) (end_ a)).
  { destruct (Z.eqb_spec (jslength prefix + 1) (-1)); [lia|]; simpl.
    now rewrite splice1_mid1, (zip_drop prefix a b rest a). }
  rewrite Z.gtb_ltb.
  destruct (Z.ltb_spec (end_ b - start b) (end_ a - start a)).
  { destruct (Z.eqb_spec (jslength prefix + 1) (-1)); [lia|]; simpl.
    now rewrite splice1_mid1, (zip_drop prefix a b rest a). }
  destruct (Z.ltb_spec (end_ a - start a) (end_ b - start b)).
  { destruct (Z.eqb_spec (jslength prefix) (-1)); [lia|]; simpl.
    now rewrite splice1_mid, (zip_drop prefix a b rest b). }
  reflexivity.
Qed.

Lemma after_pair_kind prefix a b rest :
  removes_one (zip prefix a (b :: rest)) (after_pair prefix a b rest) \/
  advances (zip prefix a (b :: rest)) (after_pair prefix a b rest).
Proof.
  assert (Hrem : forall x, removes_one (zip prefix a (b :: rest)) (zip prefix x rest)).
  { intros x. unfold removes_one, zip; simpl.
    rewrite !jslength_app, !jslength_cons, !length_app. simpl.
    repeat split; lia. }
  assert (Hadv : advances (zip prefix a (b :: rest)) (zip (prefix ++ [a]) b rest)).
  { unfold advances, zip; simpl.
    rewrite <- !app_assoc; simpl.
    rewrite (jslength_app prefix [a]), (jslength_cons a []).
    repeat split. }
  unfold after_pair.
  destruct (conflicts a b); [|now right].
  destruct (end_ b <=? end_ a); [now left|].
  destruct (span b <? span a); [now left|].
  destruct (span a <? span b); [now left|now right].
Qed.

Lemma after_pair_resolve prefix a b rest :
  exists prefix' a',
    after_pair prefix a b rest = zip prefix' a' rest /\
    prefix' ++ resolve a' rest = prefix ++ resolve a (b :: rest).
Proof.
  unfold after_pair; simpl.
  destruct (conflicts a b).
  - destruct (end_ b <=? end_ a); [now exists prefix, a|].
    destruct (span b <? span a); [now exists prefix, a|].
    destruct (span a <? span b); [now exists prefix, b|].
    exists (prefix ++ [a]), b. now rewrite <- app_assoc.
  - exists (prefix ++ [a]), b. now rewrite <- app_assoc.
Qed.

(** The run of the loop from index [length prefix]: one iteration for
    each element that follows, ending on the last index, with the
    array the recursive sweep describes. *)
Lemma sweep_run_zip rest : forall prefix a,
  exists t,
    sweep_run (zip prefix a rest) (length rest) t /\
    links t = prefix ++ resolve a rest /\
    len t = jslength (links t) /\ i t = len t - 1.
Proof.
  induction rest as [|b rest IH]; intros prefix a.
  - exists (zip prefix a []). split; [|split; [|split]].
    + constructor; [apply sweep_step_exit|]; apply zip_last.
    + reflexivity.
    + reflexivity.
    + rewrite zip_len. unfold zip, jslength; simpl. lia.
  - destruct (after_pair_resolve prefix a b rest) as (prefix' & a' & Hst & Hres).
    destruct (IH prefix' a') as (t & Hrun & Hl & Hlen & Hi).
    exists t. split; [|split; [|split]]; try assumption.
    + simpl. eapply run_iter.
      * apply sweep_step_pair.
      * apply after_pair_kind.
      * now rewrite Hst.
    + now rewrite Hl.
Qed.

Lemma sweep_run_loop s n t :
  sweep_run s n t -> forall fuel, (n < fuel)%nat -> sweep_loop fuel s = Returned t.
Proof.
  induction 1 as [s Hs _|s s' n t Hs _ _ IH]; intros fuel Hf.
  - destruct fuel; [lia|]. simpl. now rewrite Hs.
  - destruct fuel; [lia|]. simpl. rewrite Hs. apply IH. lia.
Qed.

Lemma sweep_run_initial l :
  exists t,
    sweep_run (initial l) (pred (length l)) t /\
    links t = sweep_spec l /\
    len t = jslength (links t) /\ (i t = len t - 1 \/ l = []).
Proof.
  destruct l as [|a rest].
  - exists (initial []). repeat split; try (now right).
    constructor; [reflexivity|]. simpl. unfold jslength; simpl. lia.
  - destruct (sweep_run_zip rest [] a) as (t & Hrun & Hl & Hlen & Hi).
    exists t. repeat split; try assumption. now left.
Qed.

Lemma pruneOverlaps_resolve l :
  pruneOverlaps l = Returned (sweep_spec (sort l)).
Proof.
  unfold pruneOverlaps.
  destruct (sweep_run_initial (sort l)) as (t & Hrun & Hl & _).
  rewrite (sweep_run_loop _ _ _ Hrun) by (rewrite sort_length; lia).
  simpl. now rewrite Hl.
Qed.

(** *** What the sweep keeps *)

Lemma resolve_incl rest : forall a y, In y (resolve a rest) -> In y (a :: rest).
Proof.
  induction rest as [|b rest IH]; intros a y Hy; simpl in Hy; [assumption|].
  assert (Ha : In y (resolve a rest) -> In y (a :: b :: rest)).
  { intros H. apply IH in H. simpl in *. tauto. }
  assert (Hb : In y (resolve b rest) -> In y (a :: b :: rest)).
  { intros H. apply IH in H. simpl in *. tauto. }
  assert (Hab : In y (a :: resolve b rest) -> In y (a :: b :: rest)).
  { intros [H|H]; [now left|auto]. }
  destruct (conflicts a b); [|auto].
  destruct (end_ b <=? end_ a); [auto|].
  destruct (span b <? span a); [auto|].
  destruct (span a <? span b); auto.
Qed.

Lemma StronglySorted_skip {A} (R : A -> A -> Prop) a b l :
  StronglySorted R (a :: b :: l) -> StronglySorted R (a :: l).
Proof.
  intros H. inversion H as [|? ? Hl Ha]; subst.
  inversion Hl; subst. inversion Ha; subst. now constructor.
Qed.

Lemma StronglySorted_tail {A} (R : A -> A -> Prop) a l :
  StronglySorted R (a :: l) -> StronglySorted R l.
Proof. now inversion 1. Qed.

(** The sweep keeps its input in order, whatever the order is. *)
Lemma resolve_sorted (R : LinkSpec -> LinkSpec -> Prop) rest : forall a,
  StronglySorted R (a :: rest) -> StronglySorted R (resolve a rest).
Proof.
  induction rest as [|b rest IH]; intros a Hs; simpl; [assumption|].
  assert (Ha := IH a (StronglySorted_skip _ _ _ _ Hs)).
  assert (Hb := IH b (StronglySorted_tail _ _ _ Hs)).
  assert (Hab : StronglySorted R (a :: resolve b rest)).
  { constructor; [assumption|].
    apply Forall_forall. intros y Hy. apply resolve_incl in Hy.
    inversion Hs as [|? ? _ Hall]; subst.
    rewrite Forall_forall in Hall. now apply Hall. }
  destruct (conflicts a b); [|assumption].
  destruct (end_ b <=? end_ a); [assumption|].
  destruct (span b <? span a); [assumption|].
  destruct (span a <? span b); assumption.
Qed.

Lemma sweep_spec_sorted (R : LinkSpec -> LinkSpec -> Prop) l :
  StronglySorted R l -> StronglySorted R (sweep_spec l).
Proof. destruct l; simpl; [trivial|apply resolve_sorted]. Qed.

Lemma no_equal_length_overlap_In l :
  no_equal_length_overlap l = true ->
  forall x y, In x l -> In y l -> equal_length_overlap x y = false.
Proof.
  unfold no_equal_length_overlap. intros H x y Hx Hy.
  rewrite forallb_forall in H. specialize (H x Hx).
  rewrite forallb_forall in H. specialize (H y Hy).
  now apply negb_true_iff in H.
Qed.

(** On a sorted array without equal-length partial overlaps, every
    annotation the sweep keeps ends before the next one begins. *)
Lemma resolve_precedes rest : forall a,
  StronglySorted before (a :: rest) ->
  (forall x y, In x (a :: rest) -> In y (a :: rest) ->
     equal_length_overlap x y = false) ->
  StronglySorted precedes (resolve a rest).
Proof.
  induction rest as [|b rest IH]; intros a Hs Hno; simpl.
  - repeat constructor.
  - assert (Ha : StronglySorted precedes (resolve a rest)).
    { apply IH; [eapply StronglySorted_skip; eassumption|].
      intros x y Hx Hy. apply Hno; simpl in *; tauto. }
    assert (Hb : StronglySorted precedes (resolve b rest)).
    { apply IH; [eapply StronglySorted_tail; eassumption|].
      intros x y Hx Hy. apply Hno; simpl in *; tauto. }
    assert (Hbefore : forall y, In y (resolve b rest) -> start b <= start y).
    { intros y Hy. apply resolve_incl in Hy. destruct Hy as [->|Hy]; [lia|].
      apply StronglySorted_tail in Hs.
      inversion Hs as [|? ? _ Hall]; subst. rewrite Forall_forall in Hall.
      now apply before_start, Hall. }
    assert (Hab : start a <= start b).
    { inversion Hs as [|? ? _ Hall]; subst. inversion Hall; subst.
      now apply before_start. }
    assert (Hkeep : end_ a <= start b ->
                    StronglySorted precedes (a :: resolve b rest)).
    { intros Hend. constructor; [assumption|].
      apply Forall_forall. intros y Hy. apply Hbefore in Hy.
      unfold precedes. lia. }
    assert (Hpair := Hno a b (or_introl eq_refl) (or_intror (or_introl eq_refl))).
    unfold equal_length_overlap in Hpair.
    unfold conflicts, span in *.
    destruct (Z.leb_spec (start a) (start b)); [|lia]; simpl.
    destruct (Z.ltb_spec (start b) (end_ a)); simpl; [|now apply Hkeep].
    destruct (Z.leb_spec (end_ b) (end_ a)); [assumption|].
    destruct (Z.ltb_spec (end_ b - start b) (end_ a - start a)); [assumption|].
    destruct (Z.ltb_spec (end_ a - start a) (end_ b - start b)); [assumption|].
    exfalso.
    destruct (Z.eqb_spec (end_ a - start a) (end_ b - start b)); [|lia].
    destruct (Z.ltb_spec (start a) (start b)); [|lia].
    simpl in Hpair. destruct (Z.ltb_spec (start b) (end_ a)); [discriminate|lia].
Qed.

Lemma StronglySorted_nth {A} (R : A -> A -> Prop) l :
  StronglySorted R l ->
  forall j k a b, (j < k)%nat ->
    nth_error l j = Some a -> nth_error l k = Some b -> R a b.
Proof.
  induction 1 as [|x l Hl IH Hx]; intros j k a b Hjk Ha Hb.
  - destruct j; discriminate.
  - destruct k as [|k]; [lia|]. simpl in Hb.
    destruct j as [|j]; simpl in Ha.
    + injection Ha as <-. rewrite Forall_forall in Hx.
      eapply Hx, nth_error_In; eassumption.
    + eapply IH; [|eassumption|eassumption]. lia.
Qed.

Lemma precedes_non_overlapping l :
  StronglySorted precedes l -> non_overlapping l.
Proof.
  intros Hs j k a b Hjk Ha Hb.
  destruct (Nat.lt_total j k) as [Hlt|[Heq|Hgt]]; [|contradiction|].
  - left. eapply (StronglySorted_nth _ _ Hs); eassumption.
  - right. eapply (StronglySorted_nth _ _ Hs); eassumption.
Qed.

(** The sweep changes nothing where every annotation ends before the
    next one begins. *)
Lemma resolve_fixed rest : forall a,
  StronglySorted precedes (a :: rest) -> resolve a rest = a :: rest.
Proof.
  induction rest as [|b rest IH]; intros a Hs; simpl; [reflexivity|].
  inversion Hs as [|? ? Hl Hall]; subst. inversion Hall as [|? ? Hab _]; subst.
  unfold precedes in Hab. unfold conflicts.
  destruct (Z.ltb_spec (start b) (end_ a)); [lia|].
  rewrite andb_false_r. f_equal. now apply IH.
Qed.

Lemma sweep_spec_fixed l : StronglySorted precedes l -> sweep_spec l = l.
Proof. destruct l; simpl; [trivial|apply resolve_fixed]. Qed.

(** The resolver on an array without equal-length partial overlaps. *)
Lemma sweep_spec_sort_precedes l :
  no_equal_length_overlap l = true ->
  StronglySorted precedes (sweep_spec (sort l)).
Proof.
  intros Hno. pose proof (sort_sorted l) as Hs.
  pose proof (no_equal_length_overlap_In l Hno) as Hin.
  assert (Hin' : forall x y, In x (sort l) -> In y (sort l) ->
                   equal_length_overlap x y = false).
  { intros x y Hx Hy.
    apply Hin; eapply Permutation_in; try eassumption; apply sort_perm. }
  destruct (sort l) as [|a rest]; simpl; [constructor|].
  now apply resolve_precedes.
Qed.

(** *** Single iterations of the source loop *)



(** *** The claims about [pruneOverlaps] *)

(** C1, as stated, fails: the two annotations [0,10) and [5,15) have
    equal length and overlap; [pruneOverlaps] keeps both. *)
Lemma pruneOverlaps_keeps_equal_length_overlap :
  exists r,
    pruneOverlaps [Examples.span 0 10; Examples.span 5 15] = Returned r /\
    ~ non_overlapping r.
Proof.
  eexists. split; [reflexivity|].
  intros H.
  specialize (H 0%nat 1%nat _ _ (Nat.neq_0_succ 0) eq_refl eq_refl).
  unfold disjoint in H; simpl in H. lia.
Qed.

(** C1, amended: for every list of annotations in which no two
    annotations of equal length overlap partially, [pruneOverlaps]
    returns, and no two distinct annotations of the resulting list
    have intersecting spans. *)
Theorem pruneOverlaps_non_overlapping (l : list LinkSpec) :
  no_equal_length_overlap l = true ->
  exists r, pruneOverlaps l = Returned r /\ non_overlapping r.
Proof.
  intros Hno. exists (sweep_spec (sort l)). split.
  - apply pruneOverlaps_resolve.
  - now apply precedes_non_overlapping, sweep_spec_sort_precedes.
Qed.

Lemma pruneOverlaps_non_overlapping_witness :
  exists r,
    pruneOverlaps [Examples.span 5 20; Examples.span 0 10; Examples.span 2 4]
      = Returned r /\ non_overlapping r.
Proof.
  apply (pruneOverlaps_non_overlapping
           [Examples.span 5 20; Examples.span 0 10; Examples.span 2 4]).
  vm_compute. reflexivity.
Defined.

(** C4: [pruneOverlaps] sorts the array by [start] ascending, ties by
    [end] descending, and then sweeps it: on an adjacent pair [(a, b)]
    that conflicts it removes [b] when [b.end <= a.end] or [a] is
    strictly longer, removes [a] when [b] is strictly longer, and
    removes neither when the lengths are equal; the array it leaves is
    the one this sweep describes. *)
Theorem pruneOverlaps_sorts_then_sweeps (l : list LinkSpec) :
  Permutation (sort l) l /\
  StronglySorted before (sort l) /\
  (forall prefix a b rest,
      sweep_step (zip prefix a (b :: rest)) = Next (after_pair prefix a b rest)) /\
  pruneOverlaps l = Returned (sweep_spec (sort l)).
Proof.
  split; [apply sort_perm|].
  split; [apply sort_sorted|].
  split; [apply sweep_step_pair|].
  apply pruneOverlaps_resolve.
Qed.

(** C5, as stated, fails: on [0,10), [5,15), [6,20) the first run
    leaves [0,10), [6,20), and a second run removes [0,10). *)
Lemma pruneOverlaps_second_run_differs :
  exists r r',
    pruneOverlaps [Examples.span 0 10; Examples.span 5 15; Examples.span 6 20]
      = Returned r /\
    pruneOverlaps r = Returned r' /\ r' <> r.
Proof.
  do 2 eexists. split; [reflexivity|]. split; [reflexivity|].
  discriminate.
Qed.

(** C5, amended: for every list of annotations in which no two
    annotations of equal length overlap partially, running
    [pruneOverlaps] on the list that [pruneOverlaps] left returns that
    list unchanged, with the same elements in the same order. *)
Theorem pruneOverlaps_idempotent (l : list LinkSpec) :
  no_equal_length_overlap l = true ->
  exists r, pruneOverlaps l = Returned r /\ pruneOverlaps r = Returned r.
Proof.
  intros Hno. exists (sweep_spec (sort l)). split.
  - apply pruneOverlaps_resolve.
  - rewrite pruneOverlaps_resolve.
    rewrite (sort_fixed (sweep_spec (sort l)))
      by apply sweep_spec_sorted, sort_sorted.
    f_equal. now apply sweep_spec_fixed, sweep_spec_sort_precedes.
Qed.

Lemma pruneOverlaps_idempotent_witness :
  exists r,
    pruneOverlaps [Examples.span 5 8; Examples.span 9 12; Examples.span 0 10]
      = Returned r /\ pruneOverlaps r = Returned r.
Proof.
  apply (pruneOverlaps_idempotent
           [Examples.span 5 8; Examples.span 9 12; Examples.span 0 10]).
  vm_compute. reflexivity.
Defined.


End PruneFacts.

(* ------------------------------------------------------------------ *)
(** * Properties of the gatherer and the entry points *)

Module LinkifyFacts.

(** *** Strings *)

Lemma indexOf_range s x :
  indexOf s x = -1 \/ 0 <= indexOf s x < jslength s.
Proof.
  induction s as [|y s IH]; simpl; [now left|].
  unfold jslength in *. simpl length. rewrite Nat2Z.inj_succ.
  destruct (N.eqb y x); [right; lia|].
  destruct (Z.eqb_spec (indexOf s x) (-1)); [now left|right; lia].
Qed.

Lemma indexOf_found s x :
  negb (indexOf s x =? -1) = existsb (N.eqb x) s.
Proof.
  induction s as [|y s IH]; cbn [indexOf existsb]; [reflexivity|].
  rewrite (N.eqb_sym x y).
  destruct (N.eqb y x); [reflexivity|]. cbn [orb]. rewrite <- IH.
  destruct (indexOf_range s x) as [H|H].
  - rewrite H. reflexivity.
  - destruct (Z.eqb_spec (indexOf s x) (-1)); [lia|]. simpl.
    destruct (Z.eqb_spec (indexOf s x + 1) (-1)); [lia|reflexivity].
Qed.

Lemma hasBidi_existsb text :
  hasBidi text =
  existsb (N.eqb u202C) text || existsb (N.eqb u202D) text
  || existsb (N.eqb u202E) text.
Proof.
  unfold hasBidi. induction text as [|y text IH]; cbn [existsb]; [reflexivity|].
  rewrite IH, (N.eqb_sym y u202C), (N.eqb_sym y u202D), (N.eqb_sym y u202E).
  generalize (N.eqb u202C y) (N.eqb u202D y) (N.eqb u202E y)
    (existsb (N.eqb u202C) text) (existsb (N.eqb u202D) text)
    (existsb (N.eqb u202E) text).
  intros [] [] [] [] [] []; reflexivity.
Qed.

Lemma substring_prefix (s p : jsstring) :
  (length p <= length s)%nat -> substring s 0 (jslength p) = firstn (length p) s.
Proof.
  intros H. unfold substring, jslength.
  rewrite Z.max_id, (Z.min_l 0) by lia.
  rewrite (Z.max_l (Z.of_nat (length p)) 0) by lia.
  rewrite (Z.min_l (Z.of_nat (length p))) by lia.
  rewrite Z.min_l, Z.max_r by lia.
  now rewrite Z.sub_0_r, Nat2Z.id.
Qed.

Lemma substringFrom_suffix (s p : jsstring) :
  (length p <= length s)%nat -> substringFrom s (jslength p) = skipn (length p) s.
Proof.
  intros H. unfold substringFrom, substring, jslength.
  rewrite (Z.max_l (Z.of_nat (length p)) 0) by lia.
  rewrite (Z.min_l (Z.of_nat (length p))) by lia.
  rewrite (Z.max_l (Z.of_nat (length s)) 0), Z.min_id by lia.
  rewrite Z.min_l, Z.max_r by lia.
  rewrite Nat2Z.id. apply firstn_all2. rewrite length_skipn. lia.
Qed.

(** *** The log and the bidi guard *)

Lemma logError_reports text l : reports (logError text l) = reports l ++ [text].
Proof. unfold logError; simpl. now destruct (logErrorF l). Qed.

Lemma newReports_logError text l : newReports l (logError text l) = [text].
Proof.
  unfold newReports. rewrite logError_reports.
  rewrite skipn_app, skipn_all, Nat.sub_diag. reflexivity.
Qed.

Lemma containsUnsupportedCharacters_clean text l :
  hasBidi text = false -> containsUnsupportedCharacters text l = (false, l).
Proof.
  rewrite hasBidi_existsb. unfold containsUnsupportedCharacters.
  rewrite !indexOf_found.
  destruct (existsb (N.eqb u202C) text); [discriminate|].
  destruct (existsb (N.eqb u202D) text); [discriminate|].
  destruct (existsb (N.eqb u202E) text); [discriminate|reflexivity].
Qed.

Lemma containsUnsupportedCharacters_bidi text l :
  hasBidi text = true ->
  exists x, firstUnsupported text = Some x /\
    containsUnsupportedCharacters text l = (true, logError (unsupportedMessage x) l).
Proof.
  rewrite hasBidi_existsb.
  unfold containsUnsupportedCharacters, firstUnsupported; simpl.
  rewrite !indexOf_found.
  destruct (existsb (N.eqb u202C) text); [intros _; now exists u202C|].
  destruct (existsb (N.eqb u202D) text); [intros _; now exists u202D|].
  destruct (existsb (N.eqb u202E) text); [intros _; now exists u202E|discriminate].
Qed.

Lemma containsUnsupportedCharacters_fst text l :
  fst (containsUnsupportedCharacters text l) = hasBidi text.
Proof.
  destruct (hasBidi text) eqn:H.
  - destruct (containsUnsupportedCharacters_bidi text l H) as (x & _ & ->).
    reflexivity.
  - now rewrite containsUnsupportedCharacters_clean.
Qed.

(** *** The pattern loop *)

Lemma setLastIndex_twice re j k :
  setLastIndex (setLastIndex re j) k = setLastIndex re k.
Proof. reflexivity. Qed.

Lemma setLastIndex_same re : setLastIndex re (lastIndex re) = re.
Proof. now destruct re. Qed.

Lemma well_behaved_setLastIndex re k :
  well_behaved re -> well_behaved (setLastIndex re k).
Proof. intros H s j m. apply H. Qed.

Section Platform.

Variable localeCompare : jsstring -> jsstring -> sensitivity -> Z.
Variable toLowerCase : jsstring -> jsstring.

Local Abbreviation makeUrl := (makeUrl localeCompare).
Local Abbreviation gatherLinks := (gatherLinks localeCompare).
Local Abbreviation addAutoLinks := (addAutoLinks localeCompare).
Local Abbreviation addLinks := (addLinks localeCompare toLowerCase).
Local Abbreviation addLinks_loop := (addLinks_loop localeCompare).

(** The loop of [addLinks] is the loop of [gatherLinks]. *)
Lemma addLinks_loop_gatherLinks fuel : forall links s pattern schemes mf tf,
  addLinks_loop fuel links s pattern schemes mf tf =
  gatherLinks fuel links s pattern schemes mf tf.
Proof.
  induction fuel as [|fuel IH]; intros; simpl; [reflexivity|].
  destruct (exec pattern s) as [[m|] pattern']; [|reflexivity].
  destruct mf as [f|].
  - destruct (f s (index m) (index m + jslength (matched m))); apply IH.
  - apply IH.
Qed.

(** With a well-behaved pattern the loop ends within [length s + 1]
    iterations, whatever [lastIndex] was, and leaves [lastIndex] at 0. *)
Lemma gatherLinks_returns fuel : forall links s re schemes mf tf,
  well_behaved re ->
  (Z.to_nat (jslength s - Z.max 0 (lastIndex re)) < fuel)%nat ->
  exists links',
    gatherLinks fuel links s re schemes mf tf
      = Returned (links', setLastIndex re 0) /\
    (no_accepted_match re mf s -> links' = links).
Proof.
  induction fuel as [|fuel IH]; intros links s re schemes mf tf Hwb Hfuel; [lia|].
  simpl. unfold exec.
  destruct (Z.ltb_spec (jslength s) (Z.max 0 (lastIndex re))) as [Hout|Hin].
  { exists links. now split. }
  destruct (matcher re s (Z.max 0 (lastIndex re))) as [m|] eqn:Hm.
  2:{ exists links. now split. }
  destruct (Hwb s _ m (Z.le_max_l _ _) Hm) as (Hk & Hpos & Hend).
  set (re' := setLastIndex re (index m + jslength (matched m))).
  assert (Hfuel' : (Z.to_nat (jslength s - Z.max 0 (lastIndex re')) < fuel)%nat).
  { unfold re'; simpl. lia. }
  assert (Hwb' : well_behaved re') by now apply well_behaved_setLastIndex.
  assert (Hlast : setLastIndex re' 0 = setLastIndex re 0) by reflexivity.
  destruct (match mf with
            | Some f => f s (index m) (index m + jslength (matched m))
            | None => true
            end) eqn:Hallowed.
  - destruct (IH (links ++ [mkLinkSpec (makeUrl (matched m) schemes m tf)
                              (index m) (index m + jslength (matched m))])
                s re' schemes mf tf Hwb' Hfuel') as (links' & Hrun & _).
    exists links'. rewrite <- Hlast. split; [exact Hrun|].
    intros Hno. destruct (Hno _ _ Hm) as (g & -> & Hg). congruence.
  - destruct (IH links s re' schemes mf tf Hwb' Hfuel') as (links' & Hrun & Hsame).
    exists links'. rewrite <- Hlast. split; [exact Hrun|].
    intros Hno. apply Hsame. intros k m' Hm'. exact (Hno k m' Hm').
Qed.

Lemma fuel_enough (s : jsstring) k fuel :
  (length s < fuel)%nat -> (Z.to_nat (jslength s - Z.max 0 k) < fuel)%nat.
Proof. unfold jslength. lia. Qed.

(** *** Scheme prefixes *)

Lemma makeUrl_scan_skip text pre rest :
  forallb (fun p => negb (prefix_matches localeCompare text p)) pre = true ->
  makeUrl_scan localeCompare text (pre ++ rest)
    = makeUrl_scan localeCompare text rest.
Proof.
  induction pre as [|p pre IH]; simpl; [reflexivity|].
  intros H. apply andb_prop in H as [Hp Hpre].
  apply negb_true_iff in Hp. unfold prefix_matches in Hp.
  unfold jslength.
  destruct (Z.ltb_spec (Z.of_nat (length text)) (Z.of_nat (length p))) as [Hl|Hl];
    [now apply IH|].
  rewrite (proj2 (Nat.leb_le _ _)) in Hp by lia. simpl in Hp.
  fold (jslength p). rewrite substring_prefix by lia.
  rewrite Hp. now apply IH.
Qed.

Lemma makeUrl_scan_match text p post :
  prefix_matches localeCompare text p = true ->
  makeUrl_scan localeCompare text (p :: post)
    = (if localeCompare (firstn (length p) text) p case_ =? 0
       then text else p ++ skipn (length p) text, true).
Proof.
  intros Hp. unfold prefix_matches in Hp.
  apply andb_prop in Hp as [Hlen Hacc]. apply Nat.leb_le in Hlen.
  simpl. unfold jslength at 1 2.
  destruct (Z.ltb_spec (Z.of_nat (length text)) (Z.of_nat (length p))); [lia|].
  rewrite substring_prefix, substringFrom_suffix by assumption.
  rewrite Hacc. f_equal.
  now destruct (localeCompare (firstn (length p) text) p case_ =? 0).
Qed.

Lemma same_case_same_prefix text p :
  collation_exact localeCompare ->
  prefix_matches localeCompare text p = true ->
  localeCompare (firstn (length p) text) p case_ = 0 ->
  text = p ++ skipn (length p) text.
Proof.
  intros Hexact Hp Hcase. unfold prefix_matches in Hp.
  apply andb_prop in Hp as [Hlen Hacc].
  apply Nat.leb_le in Hlen. apply Z.eqb_eq in Hacc.
  rewrite <- (Hexact (firstn (length p) text) p) at 1; try assumption.
  - symmetry. apply firstn_skipn.
  - rewrite length_firstn. lia.
Qed.

Lemma makeUrl_scan_none text prefixes :
  forallb (fun p => negb (prefix_matches localeCompare text p)) prefixes = true ->
  makeUrl_scan localeCompare text prefixes = (text, false).
Proof.
  intros H. rewrite <- (app_nil_r prefixes). now rewrite makeUrl_scan_skip.
Qed.

(** [makeUrl] on a text (after the transform filter, when there is
    one) and a prefix list.  At the first prefix that matches the
    leading characters of the text without regard to case, these
    characters are replaced by the prefix when their casing differs
    from it, and the text is kept otherwise; under a collation that
    tells apart any two distinct strings of equal length by letters or
    by case, the result is in both cases the text with its leading
    characters replaced by the prefix.  When no prefix of a non-empty
    list matches, the first prefix of the list is prepended; with an
    empty list the text is returned unchanged. *)
Theorem makeUrl_spec (url : jsstring) (prefixes : list jsstring)
    (m : RegExpExecArray) (filter : option TransformFilter) :
  let text := match filter with Some f => f m url | None => url end in
  (forall pre p post,
      prefixes = pre ++ p :: post ->
      forallb (fun q => negb (prefix_matches localeCompare text q)) pre = true ->
      prefix_matches localeCompare text p = true ->
      makeUrl url prefixes m filter
        = (if localeCompare (firstn (length p) text) p case_ =? 0
           then text else p ++ skipn (length p) text) /\
      (collation_exact localeCompare ->
       makeUrl url prefixes m filter = p ++ skipn (length p) text)) /\
  (forall p0 rest,
      prefixes = p0 :: rest ->
      forallb (fun q => negb (prefix_matches localeCompare text q)) prefixes = true ->
      makeUrl url prefixes m filter = p0 ++ text) /\
  (prefixes = [] -> makeUrl url prefixes m filter = text).
Proof.
  intros text. unfold makeUrl. fold text.
  split; [|split].
  - intros pre p post -> Hpre Hp.
    rewrite makeUrl_scan_skip, makeUrl_scan_match by assumption.
    cbn [negb andb]. split; [reflexivity|].
    intros Hexact.
    destruct (Z.eqb_spec (localeCompare (firstn (length p) text) p case_) 0);
      [|reflexivity].
    now apply same_case_same_prefix.
  - intros p0 rest -> Hnone.
    rewrite makeUrl_scan_none by assumption.
    unfold jslength; simpl length.
    destruct (Z.ltb_spec 0 (Z.of_nat (S (length rest)))); [reflexivity|lia].
  - intros ->. reflexivity.
Qed.

(** *** The entry points *)

Lemma addLinks_unfold fuel spannable pattern defaultScheme schemes mf tf l :
  addLinks fuel spannable pattern defaultScheme schemes mf tf l =
  if hasBidi spannable then
    Returned (NoneFound, pattern, snd (containsUnsupportedCharacters spannable l))
  else
    '(links, pattern') <-
      gatherLinks fuel [] spannable pattern
        (schemesCopy toLowerCase defaultScheme schemes) mf tf ;;
    Returned (Links links, pattern', l).
Proof.
  unfold addLinks.
  destruct (hasBidi spannable) eqn:Hb.
  - destruct (containsUnsupportedCharacters_bidi spannable l Hb) as (x & _ & ->).
    reflexivity.
  - rewrite containsUnsupportedCharacters_clean by assumption.
    now rewrite addLinks_loop_gatherLinks.
Qed.

(** C2, amended: [addLinks] applies the same bidi guard as
    [addAutoLinks].  On a string that contains U+202C, U+202D or
    U+202E it returns [false] with one report, for the first of the
    three that occurs, and the pattern is left as it was, whatever the
    iteration budget; on every other string it runs the loop of
    [gatherLinks] from an empty array, with the lower-cased default
    scheme followed by the lower-cased schemes, and returns the
    gathered array. *)
Theorem addLinks_guard_then_gather (fuel : nat) (spannable : jsstring)
    (pattern : RegExp) (defaultScheme : option jsstring)
    (schemes : option (list (option jsstring)))
    (matchFilter : option MatchFilter) (transformFilter : option TransformFilter)
    (l : Log) :
  addLinks fuel spannable pattern defaultScheme schemes matchFilter
           transformFilter l =
  match firstUnsupported spannable with
  | Some x => Returned (NoneFound, pattern, logError (unsupportedMessage x) l)
  | None =>
      '(links, pattern') <-
        gatherLinks fuel [] spannable pattern
          (schemesCopy toLowerCase defaultScheme schemes)
          matchFilter transformFilter ;;
      Returned (Links links, pattern', l)
  end.
Proof.
  rewrite addLinks_unfold.
  destruct (hasBidi spannable) eqn:Hb.
  - destruct (containsUnsupportedCharacters_bidi spannable l Hb) as (x & -> & ->).
    reflexivity.
  - rewrite hasBidi_existsb in Hb. unfold firstUnsupported; simpl.
    destruct (existsb (N.eqb u202C) spannable); [discriminate|].
    destruct (existsb (N.eqb u202D) spannable); [discriminate|].
    destruct (existsb (N.eqb u202E) spannable); [discriminate|reflexivity].
Qed.

(** The array [gatherLinks] leaves: the annotations of the accepted
    matches, appended in the order of the scan. *)
Lemma gatherLinks_scan fuel : forall links s re schemes mf tf,
  well_behaved re ->
  (Z.to_nat (jslength s - Z.max 0 (lastIndex re)) < fuel)%nat ->
  gatherLinks fuel links s re schemes mf tf
    = Returned (links ++
                annotations localeCompare s schemes mf tf
                  (scan fuel (matcher re) s (Z.max 0 (lastIndex re))),
                setLastIndex re 0).
Proof.
  induction fuel as [|fuel IH]; intros links s re schemes mf tf Hwb Hfuel; [lia|].
  simpl. unfold exec.
  assert (Hpast : jslength s < Z.max 0 (lastIndex re) ->
                  matcher re s (Z.max 0 (lastIndex re)) = None).
  { intros Hlt. destruct (matcher re s (Z.max 0 (lastIndex re))) as [m|] eqn:Hm;
      [|reflexivity].
    destruct (Hwb s _ m (Z.le_max_l _ _) Hm) as (Hk & Hpos & Hend). lia. }
  destruct (Z.ltb_spec (jslength s) (Z.max 0 (lastIndex re))) as [Hout|Hin].
  { rewrite (Hpast Hout). unfold annotations. simpl. now rewrite app_nil_r. }
  destruct (matcher re s (Z.max 0 (lastIndex re))) as [m|] eqn:Hm.
  2:{ unfold annotations. simpl. now rewrite app_nil_r. }
  destruct (Hwb s _ m (Z.le_max_l _ _) Hm) as (Hk & Hpos & Hend).
  pose proof (Z.le_max_l 0 (lastIndex re)) as Hk0.
  set (e := index m + jslength (matched m)) in *.
  assert (He : e = index m + jslength (matched m)) by reflexivity.
  assert (Hwb' : well_behaved (setLastIndex re e))
    by now apply well_behaved_setLastIndex.
  assert (Hfuel' : (Z.to_nat (jslength s - Z.max 0 (lastIndex (setLastIndex re e)))
                    < fuel)%nat).
  { simpl. lia. }
  assert (Hnext : forall links',
            gatherLinks fuel links' s (setLastIndex re e) schemes mf tf
            = Returned (links' ++
                        annotations localeCompare s schemes mf tf
                          (scan fuel (matcher re) s e),
                        setLastIndex re 0)).
  { intros links'. rewrite IH by assumption. simpl.
    rewrite Z.max_r by lia. reflexivity. }
  unfold annotations. cbn [filter]. unfold accepts at 1. fold e.
  destruct (match mf with
            | Some f => f s (index m) e
            | None => true
            end) eqn:Hallowed.
  - rewrite Hnext. unfold annotations.
    replace (match mf with
             | Some g => g s (index m) e
             | None => true
             end) with true by (symmetry; destruct mf; exact Hallowed).
    cbn [map]. now rewrite <- app_assoc.
  - rewrite Hnext. unfold annotations.
    replace (match mf with
             | Some g => g s (index m) e
             | None => true
             end) with false by (symmetry; destruct mf; exact Hallowed).
    reflexivity.
Qed.

(** C10: with a well-behaved pattern and an iteration budget above the
    length of the text, [addLinks] on a text without U+202C, U+202D,
    U+202E returns the array of gathered annotations: the annotation
    of every accepted match of the pattern from its [lastIndex] on, in
    the order of the matches, which is also the array [gatherLinks]
    leaves when started on an empty one.  That array is empty when no
    match is accepted, and it is returned as an array all the same.
    [addLinks] returns [false] only on a text that contains one of
    these characters. *)
Theorem addLinks_false_only_for_bidi (fuel : nat) (spannable : jsstring)
    (pattern : RegExp) (defaultScheme : option jsstring)
    (schemes : option (list (option jsstring)))
    (matchFilter : option MatchFilter) (transformFilter : option TransformFilter)
    (l : Log) :
  well_behaved pattern ->
  (length spannable < fuel)%nat ->
  (hasBidi spannable = false ->
   addLinks fuel spannable pattern defaultScheme schemes matchFilter
            transformFilter l
     = Returned
         (Links (annotations localeCompare spannable
                   (schemesCopy toLowerCase defaultScheme schemes)
                   matchFilter transformFilter
                   (scan fuel (matcher pattern) spannable
                      (Z.max 0 (lastIndex pattern)))),
          setLastIndex pattern 0, l) /\
   gatherLinks fuel [] spannable pattern
     (schemesCopy toLowerCase defaultScheme schemes) matchFilter transformFilter
     = Returned
         (annotations localeCompare spannable
            (schemesCopy toLowerCase defaultScheme schemes)
            matchFilter transformFilter
            (scan fuel (matcher pattern) spannable
               (Z.max 0 (lastIndex pattern))),
          setLastIndex pattern 0) /\
   (no_accepted_match pattern matchFilter spannable ->
    annotations localeCompare spannable
      (schemesCopy toLowerCase defaultScheme schemes)
      matchFilter transformFilter
      (scan fuel (matcher pattern) spannable (Z.max 0 (lastIndex pattern)))
    = [])) /\
  (forall pattern' l',
     addLinks fuel spannable pattern defaultScheme schemes matchFilter
              transformFilter l
       = Returned (NoneFound, pattern', l') ->
     hasBidi spannable = true).
Proof.
  intros Hwb Hfuel.
  pose proof (gatherLinks_scan fuel [] spannable pattern
                (schemesCopy toLowerCase defaultScheme schemes)
                matchFilter transformFilter Hwb (fuel_enough _ _ _ Hfuel)) as Hrun.
  cbn [app] in Hrun.
  destruct (gatherLinks_returns fuel [] spannable pattern
              (schemesCopy toLowerCase defaultScheme schemes)
              matchFilter transformFilter Hwb (fuel_enough _ _ _ Hfuel))
    as (links & Hrun' & Hnone).
  rewrite Hrun in Hrun'. injection Hrun' as Hlinks.
  rewrite addLinks_unfold, Hrun.
  split.
  - intros ->. split; [reflexivity|]. split; [reflexivity|].
    intros Hno. rewrite Hlinks. now apply Hnone.
  - intros pattern' l'. destruct (hasBidi spannable); [reflexivity|discriminate].
Qed.

(** C3, amended: on a text that contains at least one of U+202C,
    U+202D, U+202E, [addAutoLinks] returns [false] whatever the
    iteration budget, leaves both patterns as they were, and calls
    [logError] exactly once: for the first of U+202C, U+202D, U+202E,
    in this order, that occurs in the text. *)
Theorem addAutoLinks_bidi_rejected (fuel : nat) (text : jsstring)
    (mask : option Z) (w : World) :
  hasBidi text = true ->
  exists x w',
    firstUnsupported text = Some x /\
    addAutoLinks fuel text mask w = Returned (NoneFound, w') /\
    AUTOLINK_WEB_URL w' = AUTOLINK_WEB_URL w /\
    AUTOLINK_EMAIL_ADDRESS w' = AUTOLINK_EMAIL_ADDRESS w /\
    newReports (log w) (log w') = [unsupportedMessage x].
Proof.
  intros Hb.
  destruct (containsUnsupportedCharacters_bidi text (log w) Hb) as (x & Hx & Hc).
  exists x. eexists. split; [exact Hx|].
  unfold addAutoLinks. rewrite Hc. split; [reflexivity|]. simpl.
  split; [reflexivity|]. split; [reflexivity|].
  apply newReports_logError.
Qed.

(** The value a call returns, without the state it leaves. *)
Lemma addAutoLinks_log_irrelevant fuel text mask web email l1 l2 :
  bind (addAutoLinks fuel text mask (mkWorld web email l1))
       (fun r => Returned (fst r)) =
  bind (addAutoLinks fuel text mask (mkWorld web email l2))
       (fun r => Returned (fst r)).
Proof.
  unfold addAutoLinks.
  pose proof (containsUnsupportedCharacters_fst text l1) as H1.
  pose proof (containsUnsupportedCharacters_fst text l2) as H2.
  cbn [log AUTOLINK_WEB_URL AUTOLINK_EMAIL_ADDRESS].
  destruct (containsUnsupportedCharacters text l1) as [b1 l1'].
  destruct (containsUnsupportedCharacters text l2) as [b2 l2'].
  simpl in H1, H2. subst b1 b2.
  destruct (hasBidi text); [reflexivity|].
  destruct (_ =? 0); [reflexivity|].
  cbn [log AUTOLINK_WEB_URL AUTOLINK_EMAIL_ADDRESS].
  destruct (negb (Z.land _ WEB_URLS =? 0)).
  - destruct (gatherLinks fuel [] text web _ _ _) as [[links re]| |];
      cbn [bind log AUTOLINK_WEB_URL AUTOLINK_EMAIL_ADDRESS]; try reflexivity.
    destruct (negb (Z.land _ EMAIL_ADDRESSES =? 0)).
    + destruct (gatherLinks fuel links text email _ _ _) as [[links' re']| |];
        cbn [bind]; try reflexivity.
      destruct (Prune.pruneOverlaps links') as [r| |]; cbn [bind]; try reflexivity.
      destruct (jslength r =? 0); reflexivity.
    + cbn [bind].
      destruct (Prune.pruneOverlaps links) as [r| |]; cbn [bind]; try reflexivity.
      destruct (jslength r =? 0); reflexivity.
  - cbn [bind log AUTOLINK_WEB_URL AUTOLINK_EMAIL_ADDRESS].
    destruct (negb (Z.land _ EMAIL_ADDRESSES =? 0)).
    + destruct (gatherLinks fuel [] text email _ _ _) as [[links' re']| |];
        cbn [bind]; try reflexivity.
      destruct (Prune.pruneOverlaps links') as [r| |]; cbn [bind]; try reflexivity.
      destruct (jslength r =? 0); reflexivity.
    + cbn [bind]. destruct (Prune.pruneOverlaps []) as [r| |]; cbn [bind];
        try reflexivity.
      destruct (jslength r =? 0); reflexivity.
Qed.

(** A list that [addAutoLinks] returns is one that [pruneOverlaps]
    left, so it has no intersecting spans when the gathered matches
    had no equal-length partial overlap. *)
Lemma addAutoLinks_links_pruned fuel text mask w r w' :
  addAutoLinks fuel text mask w = Returned (Links r, w') ->
  exists l,
    Prune.pruneOverlaps l = Returned r /\
    (Prune.no_equal_length_overlap l = true -> Prune.non_overlapping r).
Proof.
  assert (Hp : forall l w0,
             (links0 <- Prune.pruneOverlaps l ;;
              if jslength links0 =? 0 then Returned (NoneFound, w0)
              else Returned (Links links0, w0)) = Returned (Links r, w') ->
             exists l,
               Prune.pruneOverlaps l = Returned r /\
               (Prune.no_equal_length_overlap l = true -> Prune.non_overlapping r)).
  { intros l w0. rewrite PruneFacts.pruneOverlaps_resolve. cbn [bind].
    destruct (jslength _ =? 0); [discriminate|].
    intros [= <- _]. exists l. split; [apply PruneFacts.pruneOverlaps_resolve|].
    intros Hno.
    now apply PruneFacts.precedes_non_overlapping,
      PruneFacts.sweep_spec_sort_precedes. }
  unfold addAutoLinks.
  destruct (containsUnsupportedCharacters text (log w)) as [b l'].
  destruct b; [discriminate|].
  destruct (_ =? 0); [discriminate|].
  cbn [log AUTOLINK_WEB_URL AUTOLINK_EMAIL_ADDRESS].
  destruct (negb (Z.land _ WEB_URLS =? 0)).
  - destruct (gatherLinks fuel [] text _ _ _ _) as [[links re]| |];
      cbn [bind log AUTOLINK_WEB_URL AUTOLINK_EMAIL_ADDRESS]; try discriminate.
    destruct (negb (Z.land _ EMAIL_ADDRESSES =? 0)).
    + destruct (gatherLinks fuel links text _ _ _ _) as [[links2 re2]| |];
        cbn [bind]; try discriminate. apply Hp.
    + cbn [bind]. apply Hp.
  - cbn [bind log AUTOLINK_WEB_URL AUTOLINK_EMAIL_ADDRESS].
    destruct (negb (Z.land _ EMAIL_ADDRESSES =? 0)).
    + destruct (gatherLinks fuel [] text _ _ _ _) as [[links2 re2]| |];
        cbn [bind]; try discriminate. apply Hp.
    + cbn [bind]. apply Hp.
Qed.

(** A call that starts with both patterns at [lastIndex = 0] returns
    and leaves them there. *)
Lemma addAutoLinks_returns fuel text mask w :
  well_behaved (AUTOLINK_WEB_URL w) ->
  well_behaved (AUTOLINK_EMAIL_ADDRESS w) ->
  lastIndex (AUTOLINK_WEB_URL w) = 0 ->
  lastIndex (AUTOLINK_EMAIL_ADDRESS w) = 0 ->
  (length text < fuel)%nat ->
  exists r l',
    addAutoLinks fuel text mask w
      = Returned (r, mkWorld (AUTOLINK_WEB_URL w) (AUTOLINK_EMAIL_ADDRESS w) l').
Proof.
  intros Hweb Hemail Hweb0 Hemail0 Hfuel.
  destruct w as [web email l]. simpl in *.
  assert (Hg : forall re links schemes mf tf,
             well_behaved re -> lastIndex re = 0 ->
             exists links',
               gatherLinks fuel links text re schemes mf tf = Returned (links', re)).
  { intros re links schemes mf tf Hwb H0.
    destruct (gatherLinks_returns fuel links text re schemes mf tf Hwb
                (fuel_enough _ _ _ Hfuel)) as (links' & Hrun & _).
    exists links'. rewrite Hrun, <- H0. now rewrite setLastIndex_same. }
  unfold addAutoLinks.
  cbn [log AUTOLINK_WEB_URL AUTOLINK_EMAIL_ADDRESS].
  destruct (containsUnsupportedCharacters text l) as [b l'].
  destruct b; [now eexists _, _|].
  destruct (_ =? 0); [now eexists _, _|].
  cbn [log AUTOLINK_WEB_URL AUTOLINK_EMAIL_ADDRESS].
  assert (Hp : forall links, exists r,
             (links0 <- Prune.pruneOverlaps links ;;
              if jslength links0 =? 0
              then Returned (NoneFound, mkWorld web email l')
              else Returned (Links links0, mkWorld web email l'))
             = Returned (r, mkWorld web email l')).
  { intros links. rewrite PruneFacts.pruneOverlaps_resolve. cbn [bind].
    destruct (jslength _ =? 0); now eexists. }
  destruct (negb (Z.land _ WEB_URLS =? 0)).
  - destruct (Hg web [] [str "http://"; str "https://"; str "rtsp://"]
                (Some sUrlMatchFilter) None Hweb Hweb0) as (links1 & ->).
    cbn [bind log AUTOLINK_WEB_URL AUTOLINK_EMAIL_ADDRESS].
    destruct (negb (Z.land _ EMAIL_ADDRESSES =? 0)).
    + destruct (Hg email links1 [str "mailto:"] None None Hemail Hemail0)
        as (links2 & ->).
      cbn [bind]. destruct (Hp links2) as (r & ->). now exists r, l'.
    + cbn [bind]. destruct (Hp links1) as (r & ->). now exists r, l'.
  - cbn [bind log AUTOLINK_WEB_URL AUTOLINK_EMAIL_ADDRESS].
    destruct (negb (Z.land _ EMAIL_ADDRESSES =? 0)).
    + destruct (Hg email [] [str "mailto:"] None None Hemail Hemail0)
        as (links2 & ->).
      cbn [bind]. destruct (Hp links2) as (r & ->). now exists r, l'.
    + cbn [bind]. destruct (Hp []) as (r & ->). now exists r, l'.
Qed.

(** C8: with well-behaved patterns at rest ([lastIndex = 0]) and an
    iteration budget above the length of the text, a call of
    [addAutoLinks] returns, and a second call with the same text and
    mask, made in the state the first one left, returns the same value:
    the same sentinel, or the same annotations in the same order. *)
Theorem addAutoLinks_deterministic (fuel : nat) (text : jsstring)
    (mask : option Z) (w : World) :
  well_behaved (AUTOLINK_WEB_URL w) ->
  well_behaved (AUTOLINK_EMAIL_ADDRESS w) ->
  lastIndex (AUTOLINK_WEB_URL w) = 0 ->
  lastIndex (AUTOLINK_EMAIL_ADDRESS w) = 0 ->
  (length text < fuel)%nat ->
  exists r w1 w2,
    addAutoLinks fuel text mask w = Returned (r, w1) /\
    addAutoLinks fuel text mask w1 = Returned (r, w2).
Proof.
  intros Hweb Hemail Hweb0 Hemail0 Hfuel.
  destruct (addAutoLinks_returns fuel text mask w Hweb Hemail Hweb0 Hemail0 Hfuel)
    as (r & l1 & H1).
  destruct (addAutoLinks_returns fuel text mask
              (mkWorld (AUTOLINK_WEB_URL w) (AUTOLINK_EMAIL_ADDRESS w) l1)
              Hweb Hemail Hweb0 Hemail0 Hfuel)
    as (r' & l2 & H2).
  simpl in H2.
  exists r, (mkWorld (AUTOLINK_WEB_URL w) (AUTOLINK_EMAIL_ADDRESS w) l1),
         (mkWorld (AUTOLINK_WEB_URL w) (AUTOLINK_EMAIL_ADDRESS w) l2).
  split; [exact H1|]. rewrite H2.
  pose proof (addAutoLinks_log_irrelevant fuel text mask
                (AUTOLINK_WEB_URL w) (AUTOLINK_EMAIL_ADDRESS w) (log w) l1) as Hirr.
  destruct w as [web email l]. simpl in *.
  rewrite H1, H2 in Hirr. simpl in Hirr. congruence.
Qed.

End Platform.

(** C7: the web-URL match filter returns [false] exactly when
    [start > 0] and the code unit of the text at [start - 1] is '@'
    (code 64); it returns [true] otherwise, in particular for every
    match with [start = 0]. *)
Theorem sUrlMatchFilter_spec (s : jsstring) (start end_ : Z) :
  (sUrlMatchFilter s start end_ = false <->
   0 < start /\ jsget s (start - 1) = Some 64%N) /\
  (sUrlMatchFilter s start end_ = true <->
   ~ (0 < start /\ jsget s (start - 1) = Some 64%N)) /\
  sUrlMatchFilter s 0 end_ = true.
Proof.
  assert (H : sUrlMatchFilter s start end_ = false <->
              0 < start /\ jsget s (start - 1) = Some 64%N).
  { unfold sUrlMatchFilter, charAt.
    destruct (Z.eqb_spec start 0) as [->|Hne].
    { split; [discriminate|lia]. }
    destruct (jsget s (start - 1)) as [x|] eqn:Hx.
    - assert (Hpos : 0 < start).
      { unfold jsget in Hx. destruct (Z.ltb_spec (start - 1) 0); [discriminate|lia]. }
      unfold jsstring_eqb.
      destruct (list_eq_dec N.eq_dec [x] (str "@")) as [He|He].
      + injection He as ->. now split.
      + split; [discriminate|]. intros [_ [= ->]]. now destruct He.
    - simpl. split; [discriminate|]. now intros [_ ?]. }
  split; [exact H|]. split; [|reflexivity].
  rewrite <- H. destruct (sUrlMatchFilter s start end_); split; congruence.
Qed.

(** *** The example platform *)

Lemma asciiCompare_exact : collation_exact Examples.asciiCompare.
Proof.
  intros x p _ _ H. unfold Examples.asciiCompare, jsstring_eqb in H.
  destruct (list_eq_dec N.eq_dec x p); [assumption|discriminate].
Qed.

Lemma unitPattern_well_behaved x : well_behaved (Examples.unitPattern x).
Proof.
  intros s k m Hk. simpl.
  destruct (indexOf_range (skipn (Z.to_nat k) s) x) as [Hr|Hr].
  - rewrite Hr. discriminate.
  - destruct (Z.eqb_spec (indexOf (skipn (Z.to_nat k) s) x) (-1)); [lia|].
    intros [= <-]. simpl.
    unfold jslength in *. rewrite length_skipn in Hr. simpl. lia.
Qed.

(** *** Concrete runs *)

(** C2, as stated, fails: [addLinks] on a text that ends with U+202E
    returns [false], although the pattern has a match in it. *)
Lemma addLinks_rejects_bidi_text :
  hasBidi (str "a@b" ++ [u202E]) = true /\
  addLinks Examples.asciiCompare Examples.asciiToLowerCase 8
    (str "a@b" ++ [u202E]) (Examples.unitPattern 64)
    (Some (str "mailto:")) None None None Examples.recordingLog
  = Returned (NoneFound, Examples.unitPattern 64,
              logError (unsupportedMessage u202E) Examples.recordingLog) /\
  addLinks Examples.asciiCompare Examples.asciiToLowerCase 8
    (str "a@b") (Examples.unitPattern 64)
    (Some (str "mailto:")) None None None Examples.recordingLog
  = Returned (Links [mkLinkSpec (str "mailto:@") 1 2], Examples.unitPattern 64,
              Examples.recordingLog).
Proof. repeat split. Qed.

(** C3, as stated, fails: on a text with both U+202C and U+202D the
    call reports U+202C only; U+202D occurs in the text and is never
    reported. *)
Lemma addAutoLinks_reports_first_only :
  exists w',
    addAutoLinks Examples.asciiCompare 8 [u202C; u202D] None Examples.world
      = Returned (NoneFound, w') /\
    In u202D [u202C; u202D] /\
    countReports (unsupportedMessage u202D)
      (newReports (log Examples.world) (log w')) = 0%nat /\
    countReports (unsupportedMessage u202C)
      (newReports (log Examples.world) (log w')) = 1%nat.
Proof.
  eexists. split; [reflexivity|]. split; [simpl; tauto|].
  split; vm_compute; reflexivity.
Qed.

Lemma addAutoLinks_bidi_rejected_witness :
  exists x w',
    firstUnsupported (str "a@b" ++ [u202E; u202D]) = Some x /\
    addAutoLinks Examples.asciiCompare 0 (str "a@b" ++ [u202E; u202D])
      (Some 3) Examples.world = Returned (NoneFound, w') /\
    AUTOLINK_WEB_URL w' = AUTOLINK_WEB_URL Examples.world /\
    AUTOLINK_EMAIL_ADDRESS w' = AUTOLINK_EMAIL_ADDRESS Examples.world /\
    newReports (log Examples.world) (log w') = [unsupportedMessage x].
Proof.
  apply (addAutoLinks_bidi_rejected Examples.asciiCompare 0
           (str "a@b" ++ [u202E; u202D]) (Some 3) Examples.world).
  reflexivity.
Defined.

Lemma makeUrl_spec_witness :
  makeUrl Examples.asciiCompare (str "HTTP://example.com") Examples.webSchemes
    (mkMatch 0 (str "HTTP://example.com")) None = str "http://example.com" /\
  makeUrl Examples.asciiCompare (str "example.com") Examples.webSchemes
    (mkMatch 0 (str "example.com")) None = str "http://example.com" /\
  makeUrl Examples.asciiCompare (str "example.com") []
    (mkMatch 0 (str "example.com")) None = str "example.com".
Proof.
  split; [|split].
  - exact (proj2 (proj1 (makeUrl_spec Examples.asciiCompare
                    (str "HTTP://example.com") Examples.webSchemes
                    (mkMatch 0 (str "HTTP://example.com")) None)
                  [] (str "http://") [str "https://"; str "rtsp://"]
                  eq_refl eq_refl eq_refl)
             asciiCompare_exact).
  - exact (proj1 (proj2 (makeUrl_spec Examples.asciiCompare (str "example.com")
                    Examples.webSchemes (mkMatch 0 (str "example.com")) None))
             (str "http://") [str "https://"; str "rtsp://"] eq_refl eq_refl).
  - exact (proj2 (proj2 (makeUrl_spec Examples.asciiCompare (str "example.com")
                    [] (mkMatch 0 (str "example.com")) None))
             eq_refl).
Defined.

Lemma addLinks_false_only_for_bidi_witness :
  addLinks Examples.asciiCompare Examples.asciiToLowerCase 4
    (str "a@b") (Examples.unitPattern 64) (Some (str "mailto:")) None
    None None Examples.recordingLog
  = Returned (Links [mkLinkSpec (str "mailto:@") 1 2],
              setLastIndex (Examples.unitPattern 64) 0,
              Examples.recordingLog).
Proof.
  refine (proj1 (proj1 (addLinks_false_only_for_bidi
                          Examples.asciiCompare Examples.asciiToLowerCase 4
                          (str "a@b") (Examples.unitPattern 64)
                          (Some (str "mailto:")) None None None
                          Examples.recordingLog
                          (unitPattern_well_behaved 64) _) eq_refl)).
  simpl. lia.
Defined.

(** C6: the code breaks the claim on a text whose scheme is written
    with a fullwidth letter.  Under a collation that, like the
    platform's, does not tell fullwidth forms from ASCII, the prefix
    [http://] matches the leading characters of the text at [accent]
    sensitivity, they are equal to it at [case_] sensitivity too, and
    [makeUrl] returns the text as it is: its leading characters are
    not replaced by the prefix, and no prefix is prepended. *)
Lemma makeUrl_keeps_fullwidth_scheme :
  prefix_matches Examples.widthCompare Examples.fullwidthUrl (str "http://")
    = true /\
  makeUrl Examples.widthCompare Examples.fullwidthUrl Examples.webSchemes
    (mkMatch 0 Examples.fullwidthUrl) None = Examples.fullwidthUrl /\
  Examples.fullwidthUrl
    <> str "http://" ++ skipn (length (str "http://")) Examples.fullwidthUrl /\
  Examples.fullwidthUrl <> str "http://" ++ Examples.fullwidthUrl.
Proof.
  split; [reflexivity|]. split; [reflexivity|]. split; discriminate.
Qed.

Lemma addAutoLinks_deterministic_witness :
  exists r w1 w2,
    addAutoLinks Examples.asciiCompare 4 (str "a@b") None Examples.world
      = Returned (r, w1) /\
    addAutoLinks Examples.asciiCompare 4 (str "a@b") None w1
      = Returned (r, w2).
Proof.
  apply (addAutoLinks_deterministic Examples.asciiCompare 4 (str "a@b") None
           Examples.world
           (unitPattern_well_behaved 98) (unitPattern_well_behaved 64)
           eq_refl eq_refl).
  simpl. lia.
Defined.

End LinkifyFacts.

(* ------------------------------------------------------------------ *)
(** * Further properties of the overlap resolver *)

Module PruneMore.
Import Prune PruneFacts.

Lemma LinkSpec_eq_dec (a b : LinkSpec) : {a = b} + {a <> b}.
Proof.
  decide equality; try apply Z.eq_dec. apply (list_eq_dec N.eq_dec).
Qed.

Lemma subseq_refl {A} (l : list A) : subseq l l.
Proof. induction l; constructor; assumption. Qed.

Lemma subseq_length {A} (r l : list A) : subseq r l -> (length r <= length l)%nat.
Proof. induction 1; simpl; lia. Qed.

Lemma resolve_subseq rest : forall a, subseq (resolve a rest) (a :: rest).
Proof.
  induction rest as [|b rest IH]; intros a; simpl; [apply subseq_refl|].
  assert (Ha : subseq (resolve a rest) (a :: b :: rest)).
  { specialize (IH a). inversion IH; subst.
    - now apply subseq_skip, subseq_skip.
    - now apply subseq_keep, subseq_skip. }
  assert (Hb : subseq (resolve b rest) (a :: b :: rest))
    by apply subseq_skip, IH.
  assert (Hab : subseq (a :: resolve b rest) (a :: b :: rest))
    by apply subseq_keep, IH.
  destruct (conflicts a b); [|assumption].
  destruct (end_ b <=? end_ a); [assumption|].
  destruct (span b <? span a); [assumption|].
  destruct (span a <? span b); assumption.
Qed.

Lemma resolve_nonempty rest : forall a, resolve a rest <> [].
Proof.
  induction rest as [|b rest IH]; intros a; simpl; [discriminate|].
  destruct (conflicts a b); [|discriminate].
  destruct (end_ b <=? end_ a); [apply IH|].
  destruct (span b <? span a); [apply IH|].
  destruct (span a <? span b); [apply IH|discriminate].
Qed.

(** X1: [pruneOverlaps] only deletes: the array it leaves is the
    sorted input with some elements taken out, so it is still ordered
    by [start] ascending (ties by [end] descending) and never longer
    than the input. *)
Theorem pruneOverlaps_subseq_sorted (l : list LinkSpec) :
  exists r,
    pruneOverlaps l = Returned r /\
    subseq r (sort l) /\
    StronglySorted before r /\
    (length r <= length l)%nat.
Proof.
  exists (sweep_spec (sort l)).
  assert (Hsub : subseq (sweep_spec (sort l)) (sort l)).
  { destruct (sort l); simpl; [constructor|apply resolve_subseq]. }
  split; [apply pruneOverlaps_resolve|].
  split; [assumption|].
  split; [apply sweep_spec_sorted, sort_sorted|].
  rewrite <- (sort_length l). now apply subseq_length.
Qed.

(** X2: [pruneOverlaps] leaves an empty array only when it was given
    one: of a non-empty array at least one annotation survives. *)
Theorem pruneOverlaps_empty_iff (l : list LinkSpec) :
  exists r, pruneOverlaps l = Returned r /\ (r = [] <-> l = []).
Proof.
  exists (sweep_spec (sort l)). split; [apply pruneOverlaps_resolve|].
  destruct l as [|x l]; [now split|].
  split; [|discriminate]. intros H. exfalso.
  pose proof (sort_length (x :: l)) as Hlen.
  destruct (sort (x :: l)) as [|a rest]; [discriminate|].
  now apply (resolve_nonempty rest a).
Qed.

Lemma non_overlapping_perm l l' :
  Permutation l l' -> non_overlapping l -> non_overlapping l'.
Proof.
  intros Hp Hno j k a b Hjk Ha Hb.
  apply Permutation_nth_error in Hp as (_ & f & Hinj & Hf).
  rewrite Hf in Ha, Hb.
  apply (Hno (f j) (f k)); try assumption.
  intros Heq. apply Hjk. now apply Hinj.
Qed.

Lemma non_overlapping_tail x l : non_overlapping (x :: l) -> non_overlapping l.
Proof.
  intros Hno j k a b Hjk Ha Hb.
  apply (Hno (S j) (S k)); simpl; try assumption. lia.
Qed.

Lemma sorted_disjoint_precedes l :
  StronglySorted before l -> non_overlapping l -> Forall positive l ->
  StronglySorted precedes l.
Proof.
  induction 1 as [|x l Hl IH Hx]; intros Hno Hpos; [constructor|].
  inversion Hpos as [|? ? _ Hpos']; subst.
  constructor; [apply IH; [eapply non_overlapping_tail; eassumption|assumption]|].
  rewrite Forall_forall in *. intros y Hy.
  destruct (In_nth_error _ _ Hy) as (k & Hk).
  destruct (Hno 0%nat (S k) x y (Nat.neq_0_succ k) eq_refl Hk) as [H|H];
    [exact H|].
  specialize (Hx y Hy). apply before_start in Hx.
  specialize (Hpos' y Hy). unfold positive, precedes in *. lia.
Qed.

(** X3: from an array of non-empty spans no two of which intersect,
    [pruneOverlaps] removes nothing: it leaves the sorted array, a
    permutation of the input. *)
Theorem pruneOverlaps_keeps_disjoint (l : list LinkSpec) :
  Forall positive l -> non_overlapping l ->
  pruneOverlaps l = Returned (sort l) /\ Permutation (sort l) l.
Proof.
  intros Hpos Hno. split; [|apply sort_perm].
  rewrite pruneOverlaps_resolve. f_equal.
  apply sweep_spec_fixed, sorted_disjoint_precedes.
  - apply sort_sorted.
  - eapply non_overlapping_perm; [symmetry; apply sort_perm|assumption].
  - eapply Permutation_Forall; [symmetry; apply sort_perm|assumption].
Qed.

Lemma pruneOverlaps_keeps_disjoint_witness :
  pruneOverlaps [Examples.span 12 20; Examples.span 0 5; Examples.span 5 12]
    = Returned (sort [Examples.span 12 20; Examples.span 0 5; Examples.span 5 12])
  /\ Permutation
       (sort [Examples.span 12 20; Examples.span 0 5; Examples.span 5 12])
       [Examples.span 12 20; Examples.span 0 5; Examples.span 5 12].
Proof.
  apply (pruneOverlaps_keeps_disjoint
           [Examples.span 12 20; Examples.span 0 5; Examples.span 5 12]).
  - repeat constructor.
  - apply (non_overlapping_perm
             [Examples.span 0 5; Examples.span 5 12; Examples.span 12 20]).
    + apply Permutation_sym, (perm_trans (perm_swap _ _ _)).
      apply perm_skip, perm_swap.
    + apply precedes_non_overlapping.
      repeat constructor; unfold precedes; simpl; lia.
Defined.

Lemma resolve_container rest : forall h,
  Forall (fun b => covers h b /\ positive b) rest -> resolve h rest = [h].
Proof.
  induction rest as [|b rest IH]; intros h Hall; simpl; [reflexivity|].
  inversion Hall as [|? ? [[Hs He] Hp] Hrest]; subst.
  unfold conflicts, positive in *.
  destruct (Z.leb_spec (start h) (start b)); [|lia].
  destruct (Z.ltb_spec (start b) (end_ h)); [|lia]. simpl.
  destruct (Z.leb_spec (end_ b) (end_ h)); [|lia].
  now apply IH.
Qed.

(** X4: when one annotation of the array contains every annotation of
    the array, all of them non-empty, [pruneOverlaps] leaves a single
    annotation, with the span of the containing one. *)
Theorem pruneOverlaps_container (l : list LinkSpec) (a : LinkSpec) :
  In a l -> Forall (fun b => covers a b /\ positive b) l ->
  exists a',
    pruneOverlaps l = Returned [a'] /\ In a' l /\
    start a' = start a /\ end_ a' = end_ a.
Proof.
  intros Ha Hall. rewrite pruneOverlaps_resolve.
  pose proof (sort_sorted l) as Hs. pose proof (sort_perm l) as Hp.
  assert (Ha' : In a (sort l)) by (eapply Permutation_in; [symmetry|]; eassumption).
  assert (Hall' : Forall (fun b => covers a b /\ positive b) (sort l))
    by (eapply Permutation_Forall; [symmetry|]; eassumption).
  destruct (sort l) as [|h rest]; [contradiction|].
  assert (Hspan : start h = start a /\ end_ h = end_ a).
  { inversion Hall' as [|? ? [[Hsa Hea] _] _]; subst.
    destruct Ha' as [->|Hin]; [now split|].
    inversion Hs as [|? ? _ Hh]; subst. rewrite Forall_forall in Hh.
    specialize (Hh a Hin). unfold before in Hh. lia. }
  exists h. simpl. rewrite resolve_container.
  - split; [reflexivity|]. split; [|exact Hspan].
    eapply Permutation_in; [exact Hp|now left].
  - inversion Hall' as [|? ? _ Hrest]; subst.
    eapply Forall_impl; [|exact Hrest].
    intros b [[Hsb Heb] Hpb]. unfold covers. repeat split; try assumption; lia.
Qed.

Lemma pruneOverlaps_container_witness :
  exists a',
    pruneOverlaps [Examples.span 3 4; Examples.span 0 10; Examples.span 5 10;
                   Examples.span 0 2]
      = Returned [a'] /\
    In a' [Examples.span 3 4; Examples.span 0 10; Examples.span 5 10;
           Examples.span 0 2] /\
    start a' = start (Examples.span 0 10) /\ end_ a' = end_ (Examples.span 0 10).
Proof.
  apply (pruneOverlaps_container
           [Examples.span 3 4; Examples.span 0 10; Examples.span 5 10;
            Examples.span 0 2] (Examples.span 0 10)).
  - simpl. tauto.
  - repeat constructor; simpl; lia.
Defined.

Lemma resolve_keeps_isolated (x : LinkSpec) rest : forall a,
  In x (a :: rest) ->
  Forall (fun y => y = x \/ (conflicts x y = false /\ conflicts y x = false))
         (a :: rest) ->
  In x (resolve a rest).
Proof.
  induction rest as [|b rest IH]; intros a Hin Hiso; simpl; [assumption|].
  inversion Hiso as [|? ? Ha Hiso']; subst.
  inversion Hiso' as [|? ? Hb Hrest]; subst.
  assert (Hkeep : In x (a :: resolve b rest)).
  { destruct Hin as [->|Hin]; [now left|right]. now apply IH. }
  destruct (conflicts a b) eqn:Hc; [|assumption].
  assert (Hboth : (a = x /\ b = x) \/ (a <> x /\ b <> x)).
  { destruct (LinkSpec_eq_dec a x) as [->|Hax], (LinkSpec_eq_dec b x) as [->|Hbx];
      try tauto.
    - destruct Hb as [->|[Hxb _]]; [tauto|congruence].
    - destruct Ha as [->|[_ Hax']]; [tauto|congruence]. }
  assert (Hin_a : In x (a :: rest)).
  { destruct Hboth as [[-> _]|[Hax Hbx]]; [now left|].
    destruct Hin as [->|[->|Hin]]; try tauto. now right. }
  assert (Hin_b : In x (b :: rest)).
  { destruct Hboth as [[_ ->]|[Hax Hbx]]; [now left|].
    destruct Hin as [->|Hin]; tauto. }
  assert (Hra : In x (resolve a rest)) by (apply IH; [assumption|now constructor]).
  assert (Hrb : In x (resolve b rest)) by (apply IH; assumption).
  destruct (end_ b <=? end_ a); [assumption|].
  destruct (span b <? span a); [assumption|].
  destruct (span a <? span b); assumption.
Qed.

(** X5: an annotation that conflicts with no other annotation of the
    array (neither begins inside the other) is never removed by
    [pruneOverlaps]. *)
Theorem pruneOverlaps_keeps_isolated (l : list LinkSpec) (x : LinkSpec) :
  In x l ->
  Forall (fun y => y = x \/ (conflicts x y = false /\ conflicts y x = false)) l ->
  exists r, pruneOverlaps l = Returned r /\ In x r.
Proof.
  intros Hin Hiso. exists (sweep_spec (sort l)).
  split; [apply pruneOverlaps_resolve|].
  assert (Hin' : In x (sort l))
    by (eapply Permutation_in; [symmetry; apply sort_perm|assumption]).
  assert (Hiso' : Forall (fun y => y = x \/
                    (conflicts x y = false /\ conflicts y x = false)) (sort l))
    by (eapply Permutation_Forall; [symmetry; apply sort_perm|assumption]).
  destruct (sort l) as [|a rest]; [contradiction|].
  now apply resolve_keeps_isolated.
Qed.

Lemma pruneOverlaps_keeps_isolated_witness :
  exists r,
    pruneOverlaps [Examples.span 5 15; Examples.span 20 22; Examples.span 0 10;
                   Examples.span 6 20] = Returned r /\
    In (Examples.span 20 22) r.
Proof.
  apply (pruneOverlaps_keeps_isolated
           [Examples.span 5 15; Examples.span 20 22; Examples.span 0 10;
            Examples.span 6 20] (Examples.span 20 22)).
  - simpl. tauto.
  - repeat constructor; (now left) || (right; split; reflexivity).
Defined.

Lemma resolve_keeps_longest (x : LinkSpec) rest : forall a,
  In x (a :: rest) ->
  Forall (fun y => y = x \/ span y < span x) (a :: rest) ->
  In x (resolve a rest).
Proof.
  induction rest as [|b rest IH]; intros a Hin Hlong; simpl; [assumption|].
  inversion Hlong as [|? ? Ha Hlong']; subst.
  inversion Hlong' as [|? ? Hb Hrest]; subst.
  assert (Hkeep : In x (a :: resolve b rest)).
  { destruct Hin as [->|Hin]; [now left|right]. now apply IH. }
  assert (Hdrop_b : (b = x -> a = x) -> In x (resolve a rest)).
  { intros Hba. apply IH; [|now constructor].
    destruct Hin as [->|[->|Hin]]; [now left|left; now apply Hba|now right]. }
  assert (Hdrop_a : a <> x -> In x (resolve b rest)).
  { intros Hax. apply IH; [|assumption]. destruct Hin as [->|Hin]; tauto. }
  unfold conflicts, span in *.
  destruct (Z.leb_spec (start a) (start b)); simpl; [|assumption].
  destruct (Z.ltb_spec (start b) (end_ a)); simpl; [|assumption].
  destruct (Z.leb_spec (end_ b) (end_ a)).
  { apply Hdrop_b. intros ->. destruct Ha as [->|Ha]; [reflexivity|lia]. }
  destruct (Z.ltb_spec (end_ b - start b) (end_ a - start a)).
  { apply Hdrop_b. intros ->. destruct Ha as [->|Ha]; [reflexivity|lia]. }
  destruct (Z.ltb_spec (end_ a - start a) (end_ b - start b)); [|assumption].
  apply Hdrop_a. intros ->. destruct Hb as [->|Hb]; lia.
Qed.

(** X6: an annotation strictly longer than every other annotation of
    the array is never removed by [pruneOverlaps]. *)
Theorem pruneOverlaps_keeps_longest (l : list LinkSpec) (x : LinkSpec) :
  In x l ->
  Forall (fun y => y = x \/ span y < span x) l ->
  exists r, pruneOverlaps l = Returned r /\ In x r.
Proof.
  intros Hin Hlong. exists (sweep_spec (sort l)).
  split; [apply pruneOverlaps_resolve|].
  assert (Hin' : In x (sort l))
    by (eapply Permutation_in; [symmetry; apply sort_perm|assumption]).
  assert (Hlong' : Forall (fun y => y = x \/ span y < span x) (sort l))
    by (eapply Permutation_Forall; [symmetry; apply sort_perm|assumption]).
  destruct (sort l) as [|a rest]; [contradiction|].
  now apply resolve_keeps_longest.
Qed.

Lemma pruneOverlaps_keeps_longest_witness :
  exists r,
    pruneOverlaps [Examples.span 0 10; Examples.span 5 15; Examples.span 6 20]
      = Returned r /\
    In (Examples.span 6 20) r.
Proof.
  apply (pruneOverlaps_keeps_longest
           [Examples.span 0 10; Examples.span 5 15; Examples.span 6 20]
           (Examples.span 6 20)).
  - simpl. tauto.
  - repeat constructor; (now left) || (right; unfold span; simpl; lia).
Defined.

(** X14: the comparator handed to [sort] is a consistent total order
    on spans: it returns -1, 0 or 1, swapping the arguments negates
    the result, it returns 0 exactly for two annotations with the same
    [start] and [end], and it is transitive. *)
Theorem c_consistent (a b d : LinkSpec) :
  (c a b = -1 \/ c a b = 0 \/ c a b = 1) /\
  c a b = - c b a /\
  (c a b = 0 <-> start a = start b /\ end_ a = end_ b) /\
  (c a b <= 0 -> c b d <= 0 -> c a d <= 0).
Proof.
  unfold c. rewrite !Z.gtb_ltb.
  destruct (Z.ltb_spec (start a) (start b)), (Z.ltb_spec (start b) (start a)),
    (Z.ltb_spec (end_ a) (end_ b)), (Z.ltb_spec (end_ b) (end_ a)),
    (Z.ltb_spec (start b) (start d)), (Z.ltb_spec (start d) (start b)),
    (Z.ltb_spec (end_ b) (end_ d)), (Z.ltb_spec (end_ d) (end_ b)),
    (Z.ltb_spec (start a) (start d)), (Z.ltb_spec (start d) (start a)),
    (Z.ltb_spec (end_ a) (end_ d)), (Z.ltb_spec (end_ d) (end_ a));
    try lia.
Qed.

Lemma strictly_before_trans a b y :
  strictly_before a b -> before b y -> strictly_before a y.
Proof. unfold strictly_before, before. lia. Qed.

Lemma resolve_strict rest : forall a,
  StronglySorted before (a :: rest) -> Forall positive (a :: rest) ->
  StronglySorted strictly_before (resolve a rest).
Proof.
  induction rest as [|b rest IH]; intros a Hs Hpos; simpl.
  - repeat constructor.
  - assert (Ha : StronglySorted strictly_before (resolve a rest)).
    { apply IH; [eapply StronglySorted_skip; eassumption|].
      inversion Hpos as [|? ? Hpa Hpos']; subst.
      inversion Hpos'; subst. now constructor. }
    assert (Hb : StronglySorted strictly_before (resolve b rest)).
    { apply IH; [eapply StronglySorted_tail; eassumption|].
      now inversion Hpos. }
    assert (Hab : before a b).
    { inversion Hs as [|? ? _ Hall]; subst. now inversion Hall. }
    assert (Hkeep : strictly_before a b ->
                    StronglySorted strictly_before (a :: resolve b rest)).
    { intros Hstrict. constructor; [assumption|].
      apply Forall_forall. intros y Hy. apply resolve_incl in Hy.
      eapply strictly_before_trans; [exact Hstrict|].
      destruct Hy as [->|Hy]; [unfold before; lia|].
      apply StronglySorted_tail in Hs.
      inversion Hs as [|? ? _ Hall]; subst. rewrite Forall_forall in Hall.
      now apply Hall. }
    assert (Hpa : positive a) by now inversion Hpos.
    unfold conflicts, span, before, strictly_before, positive in *.
    destruct (Z.leb_spec (start a) (start b)); simpl; [|lia].
    destruct (Z.ltb_spec (start b) (end_ a)); simpl; [|apply Hkeep; lia].
    destruct (Z.leb_spec (end_ b) (end_ a)); [assumption|].
    destruct (Z.ltb_spec (end_ b - start b) (end_ a - start a)); [assumption|].
    destruct (Z.ltb_spec (end_ a - start a) (end_ b - start b)); [assumption|].
    apply Hkeep. lia.
Qed.

(** X17: of an array of non-empty spans, [pruneOverlaps] leaves at
    most one annotation for each span: the result is strictly ordered
    ([start] ascending, ties by [end] strictly descending), so no two
    of its annotations have the same [start] and [end]. *)
Theorem pruneOverlaps_one_per_span (l : list LinkSpec) :
  Forall positive l ->
  exists r,
    pruneOverlaps l = Returned r /\
    StronglySorted strictly_before r /\
    (forall j k a b, j <> k ->
       nth_error r j = Some a -> nth_error r k = Some b ->
       ~ (start a = start b /\ end_ a = end_ b)).
Proof.
  intros Hpos. exists (sweep_spec (sort l)).
  split; [apply pruneOverlaps_resolve|].
  assert (Hs : StronglySorted strictly_before (sweep_spec (sort l))).
  { pose proof (sort_sorted l) as Hsorted.
    assert (Hpos' : Forall positive (sort l))
      by (eapply Permutation_Forall; [symmetry; apply sort_perm|assumption]).
    destruct (sort l) as [|a rest]; simpl; [constructor|].
    now apply resolve_strict. }
  split; [exact Hs|].
  intros j k a b Hjk Ha Hb [Hst Hen].
  destruct (Nat.lt_total j k) as [Hlt|[Heq|Hgt]]; [|contradiction|].
  - pose proof (StronglySorted_nth _ _ Hs j k a b Hlt Ha Hb) as H.
    unfold strictly_before in H. lia.
  - pose proof (StronglySorted_nth _ _ Hs k j b a Hgt Hb Ha) as H.
    unfold strictly_before in H. lia.
Qed.

Lemma pruneOverlaps_one_per_span_witness :
  exists r,
    pruneOverlaps [mkLinkSpec (str "http://a.b") 0 3;
                   mkLinkSpec (str "mailto:a.b") 0 3; Examples.span 4 6]
      = Returned r /\
    StronglySorted strictly_before r /\
    (forall j k a b, j <> k ->
       nth_error r j = Some a -> nth_error r k = Some b ->
       ~ (start a = start b /\ end_ a = end_ b)).
Proof.
  apply (pruneOverlaps_one_per_span
           [mkLinkSpec (str "http://a.b") 0 3;
            mkLinkSpec (str "mailto:a.b") 0 3; Examples.span 4 6]).
  repeat constructor.
Defined.

End PruneMore.

(* ------------------------------------------------------------------ *)
(** * Further properties of the gatherer and the entry points *)

Module LinkifyMore.
Import LinkifyFacts.

(** *** The phone-number filter *)

Section PhoneFacts.

Variable isDigit : jsstring -> bool.

Lemma jslength_cons_filter {A} (x : A) (l : list A) :
  jslength (x :: l) = 1 + jslength l.
Proof. unfold jslength. simpl length. lia. Qed.

Lemma digits_bound s i n :
  0 <= jslength (filter (fun i => isDigit (charAt s i)) (positions i n))
    <= Z.of_nat n.
Proof.
  revert i. induction n as [|n IH]; intros i; simpl.
  - unfold jslength; simpl. lia.
  - specialize (IH (i + 1)). unfold jslength in *.
    destruct (isDigit (charAt s i)); simpl length; lia.
Qed.

Lemma sPhoneNumberMatchFilter_loop_count n : forall s i c,
  0 <= c < PHONE_NUMBER_MINIMUM_DIGITS ->
  sPhoneNumberMatchFilter_loop isDigit n s i c =
  (PHONE_NUMBER_MINIMUM_DIGITS <=?
     c + jslength (filter (fun i => isDigit (charAt s i)) (positions i n))).
Proof.
  unfold PHONE_NUMBER_MINIMUM_DIGITS.
  induction n as [|n IH]; intros s i c Hc; simpl.
  - unfold jslength; simpl. destruct (Z.leb_spec 5 (c + 0)); [lia|reflexivity].
  - pose proof (digits_bound s (i + 1) n) as Hb.
    destruct (isDigit (charAt s i)).
    + rewrite jslength_cons_filter.
      change PHONE_NUMBER_MINIMUM_DIGITS with 5. rewrite Z.geb_leb.
      destruct (Z.leb_spec 5 (c + 1)) as [Hge|Hlt].
      * symmetry. apply Z.leb_le. lia.
      * rewrite IH by lia. f_equal. lia.
    + now apply IH.
Qed.

(** X7: the phone-number filter accepts a span exactly when the text
    has at least five digits at the offsets [start .. end - 1]; in
    particular it rejects every span of fewer than five code units,
    empty and inverted spans included. *)
Theorem sPhoneNumberMatchFilter_counts (s : jsstring) (start end_ : Z) :
  sPhoneNumberMatchFilter isDigit s start end_ =
    (PHONE_NUMBER_MINIMUM_DIGITS <=? digitsIn isDigit s start end_) /\
  (end_ - start < PHONE_NUMBER_MINIMUM_DIGITS ->
   sPhoneNumberMatchFilter isDigit s start end_ = false).
Proof.
  assert (H : sPhoneNumberMatchFilter isDigit s start end_ =
              (PHONE_NUMBER_MINIMUM_DIGITS <=? digitsIn isDigit s start end_)).
  { unfold sPhoneNumberMatchFilter, digitsIn.
    rewrite sPhoneNumberMatchFilter_loop_count
      by (unfold PHONE_NUMBER_MINIMUM_DIGITS; lia).
    reflexivity. }
  split; [exact H|]. intros Hshort. rewrite H.
  unfold digitsIn, PHONE_NUMBER_MINIMUM_DIGITS in *.
  pose proof (digits_bound s start (Z.to_nat (end_ - start))) as Hb.
  apply Z.leb_gt. lia.
Qed.

End PhoneFacts.

(** *** The guard *)

Lemma existsb_eqb_In (x : N) (s : jsstring) :
  existsb (N.eqb x) s = true <-> In x s.
Proof.
  rewrite existsb_exists. split.
  - intros (y & Hy & Heq). apply N.eqb_eq in Heq. now subst.
  - intros H. exists x. split; [assumption|apply N.eqb_refl].
Qed.

(** X13: [containsUnsupportedCharacters] returns [true] exactly when
    the text contains U+202C, U+202D or U+202E.  When it returns
    [false] the log is untouched; when it returns [true] it has called
    [logError] once, with the message of the first of the three that
    occurs, and the installed handler, if any, has received that
    message. *)
Theorem containsUnsupportedCharacters_spec (text : jsstring) (l : Log) :
  (fst (containsUnsupportedCharacters text l) = true <->
   In u202C text \/ In u202D text \/ In u202E text) /\
  (fst (containsUnsupportedCharacters text l) = false ->
   snd (containsUnsupportedCharacters text l) = l) /\
  (fst (containsUnsupportedCharacters text l) = true ->
   exists x,
     firstUnsupported text = Some x /\
     reports (snd (containsUnsupportedCharacters text l))
       = reports l ++ [unsupportedMessage x] /\
     logErrorF (snd (containsUnsupportedCharacters text l)) = logErrorF l /\
     sink (snd (containsUnsupportedCharacters text l))
       = match logErrorF l with
         | Some f => f (unsupportedMessage x) (sink l)
         | None => sink l
         end).
Proof.
  rewrite containsUnsupportedCharacters_fst.
  split; [|split].
  - rewrite hasBidi_existsb, !orb_true_iff, !existsb_eqb_In. tauto.
  - intros H. now rewrite containsUnsupportedCharacters_clean.
  - intros H.
    destruct (containsUnsupportedCharacters_bidi text l H) as (x & Hx & ->).
    exists x. split; [exact Hx|]. simpl.
    split; [apply logError_reports|].
    unfold logError; simpl. destruct (logErrorF l); split; reflexivity.
Qed.

Section Platform.

Variable localeCompare : jsstring -> jsstring -> sensitivity -> Z.
Variable toLowerCase : jsstring -> jsstring.

Local Abbreviation makeUrl := (makeUrl localeCompare).
Local Abbreviation gatherLinks := (gatherLinks localeCompare).
Local Abbreviation addAutoLinks := (addAutoLinks localeCompare).
Local Abbreviation addLinks := (addLinks localeCompare toLowerCase).
Local Abbreviation gathered_by := (gathered_by localeCompare).

(** *** Scheme prefixes *)





(** *** The pattern loop *)

Lemma gatherLinks_spec fuel : forall links s re schemes mf tf links' re',
  well_behaved re ->
  gatherLinks fuel links s re schemes mf tf = Returned (links', re') ->
  exists new,
    links' = links ++ new /\
    Forall (fun a => gathered_by s (matcher re) schemes mf tf a /\
                     Z.max 0 (lastIndex re) <= start a /\
                     valid_span s a) new /\
    StronglySorted Prune.precedes new.
Proof.
  induction fuel as [|fuel IH]; intros links s re schemes mf tf links' re' Hwb Hrun;
    [discriminate|].
  simpl in Hrun. unfold exec in Hrun.
  assert (Hnil : Returned (links, setLastIndex re 0) = Returned (links', re') ->
                 exists new,
                   links' = links ++ new /\
                   Forall (fun a => gathered_by s (matcher re) schemes mf tf a /\
                                    Z.max 0 (lastIndex re) <= start a /\
                                    valid_span s a) new /\
                   StronglySorted Prune.precedes new).
  { intros [= <- _]. exists []. rewrite app_nil_r. repeat constructor. }
  destruct (jslength s <? Z.max 0 (lastIndex re)); [now apply Hnil|].
  destruct (matcher re s (Z.max 0 (lastIndex re))) as [m|] eqn:Hm;
    [|now apply Hnil].
  destruct (Hwb s _ m (Z.le_max_l _ _) Hm) as (Hk & Hpos & Hend).
  pose proof (Z.le_max_l 0 (lastIndex re)) as Hk0.
  set (e := index m + jslength (matched m)) in *.
  assert (He : e = index m + jslength (matched m)) by reflexivity.
  assert (Hwb' : well_behaved (setLastIndex re e))
    by now apply well_behaved_setLastIndex.
  assert (Hweaken : forall new,
    Forall (fun a => gathered_by s (matcher (setLastIndex re e)) schemes mf tf a /\
                     Z.max 0 (lastIndex (setLastIndex re e)) <= start a /\
                     valid_span s a) new ->
    Forall (fun a => gathered_by s (matcher re) schemes mf tf a /\
                     Z.max 0 (lastIndex re) <= start a /\
                     valid_span s a) new /\
    Forall (fun a => e <= start a) new).
  { intros new Hall. split; (eapply Forall_impl; [|exact Hall]);
      simpl; intros a (Hg & Hs & Hv).
    - split; [assumption|]. split; [lia|assumption].
    - lia. }
  destruct (match mf with
            | Some f => f s (index m) e
            | None => true
            end) eqn:Hallowed.
  - apply IH in Hrun as (new & -> & Hall & Hsorted); [|assumption].
    apply Hweaken in Hall as [Hall Hafter].
    exists (mkLinkSpec (makeUrl (matched m) schemes m tf) (index m) e :: new).
    split; [now rewrite <- app_assoc|].
    split; [constructor; [|assumption]|constructor; assumption].
    split; [|split].
    + exists (Z.max 0 (lastIndex re)), m. repeat split; try assumption.
      unfold accepted; simpl. now destruct mf.
    + simpl. lia.
    + unfold valid_span; simpl. lia.
  - apply IH in Hrun as (new & -> & Hall & Hsorted); [|assumption].
    apply Hweaken in Hall as [Hall _].
    exists new. now repeat split.
Qed.

(** X8: with a well-behaved pattern and an iteration budget above the
    length of the text, [gatherLinks] returns, keeps the annotations
    the array already held and appends the new ones after them, and
    leaves the pattern's [lastIndex] at 0.  Every appended annotation
    is made of a match of the pattern: a non-empty span inside the
    text that the filter accepts, with the URL [makeUrl] gives; the
    appended annotations are in text order, each ending where the next
    begins or earlier. *)
Theorem gatherLinks_appends_matches (fuel : nat) (links : list LinkSpec)
    (s : jsstring) (re : RegExp) (schemes : list jsstring)
    (mf : option MatchFilter) (tf : option TransformFilter) :
  well_behaved re ->
  (length s < fuel)%nat ->
  exists new,
    gatherLinks fuel links s re schemes mf tf
      = Returned (links ++ new, setLastIndex re 0) /\
    Forall (fun a => gathered_by s (matcher re) schemes mf tf a /\
                     valid_span s a) new /\
    StronglySorted Prune.precedes new.
Proof.
  clear toLowerCase. intros Hwb Hfuel.
  destruct (gatherLinks_returns localeCompare fuel links s re schemes mf tf Hwb
              (fuel_enough _ _ _ Hfuel)) as (links' & Hrun & _).
  destruct (gatherLinks_spec fuel links s re schemes mf tf _ _ Hwb Hrun)
    as (new & -> & Hall & Hsorted).
  exists new. split; [exact Hrun|]. split; [|assumption].
  eapply Forall_impl; [|exact Hall]. simpl. tauto.
Qed.

(** *** [addAutoLinks] *)

Lemma pruneOverlaps_In l r x :
  Prune.pruneOverlaps l = Returned r -> In x r -> In x l.
Proof.
  rewrite PruneFacts.pruneOverlaps_resolve. intros [= <-] Hin.
  eapply Permutation_in; [apply PruneFacts.sort_perm|].
  destruct (Prune.sort l) as [|a rest]; [contradiction|].
  now apply PruneFacts.resolve_incl.
Qed.

(** What a call that returned a list went through. *)
Lemma addAutoLinks_Links_inv fuel text mask w r w' :
  addAutoLinks fuel text mask w = Returned (Links r, w') ->
  r <> [] /\
  exists l1 l2,
    (l1 = [] \/
     exists re,
       gatherLinks fuel [] text (AUTOLINK_WEB_URL w)
         [str "http://"; str "https://"; str "rtsp://"]
         (Some sUrlMatchFilter) None = Returned (l1, re)) /\
    (l2 = l1 \/
     exists re,
       gatherLinks fuel l1 text (AUTOLINK_EMAIL_ADDRESS w)
         [str "mailto:"] None None = Returned (l2, re)) /\
    Prune.pruneOverlaps l2 = Returned r.
Proof.
  assert (Hp : forall l w0,
             (links0 <- Prune.pruneOverlaps l ;;
              if jslength links0 =? 0 then Returned (NoneFound, w0)
              else Returned (Links links0, w0)) = Returned (Links r, w') ->
             r <> [] /\ Prune.pruneOverlaps l = Returned r).
  { intros l w0. destruct (Prune.pruneOverlaps l) as [r0| |]; cbn [bind];
      try discriminate.
    destruct r0 as [|x r0]; [discriminate|].
    unfold jslength; simpl length.
    destruct (Z.eqb_spec (Z.of_nat (S (length r0))) 0); [lia|].
    intros [= <- _]. split; [discriminate|reflexivity]. }
  unfold addAutoLinks.
  destruct (containsUnsupportedCharacters text (log w)) as [b l'].
  destruct b; [discriminate|].
  destruct (_ =? 0); [discriminate|].
  cbn [log AUTOLINK_WEB_URL AUTOLINK_EMAIL_ADDRESS].
  destruct (negb (Z.land _ WEB_URLS =? 0)).
  - destruct (gatherLinks fuel [] text _ _ _ _) as [[l1 re1]| |] eqn:H1;
      cbn [bind log AUTOLINK_WEB_URL AUTOLINK_EMAIL_ADDRESS]; try discriminate.
    destruct (negb (Z.land _ EMAIL_ADDRESSES =? 0)).
    + destruct (gatherLinks fuel l1 text _ _ _ _) as [[l2 re2]| |] eqn:H2;
        cbn [bind]; try discriminate.
      intros H. apply Hp in H as [Hne Hr]. split; [exact Hne|].
      exists l1, l2. repeat split; try assumption; right; eauto.
    + cbn [bind]. intros H. apply Hp in H as [Hne Hr]. split; [exact Hne|].
      exists l1, l1. repeat split; try assumption; [right; eauto|now left].
  - cbn [bind log AUTOLINK_WEB_URL AUTOLINK_EMAIL_ADDRESS].
    destruct (negb (Z.land _ EMAIL_ADDRESSES =? 0)).
    + destruct (gatherLinks fuel [] text _ _ _ _) as [[l2 re2]| |] eqn:H2;
        cbn [bind]; try discriminate.
      intros H. apply Hp in H as [Hne Hr]. split; [exact Hne|].
      exists [], l2. repeat split; try assumption; [now left|right; eauto].
    + cbn [bind]. intros H. apply Hp in H as [Hne Hr]. split; [exact Hne|].
      exists [], []. repeat split; try assumption; now left.
Qed.

(** With well-behaved patterns, every annotation of a returned list is
    made of an accepted web match or of an email match. *)
Lemma addAutoLinks_gathered fuel text mask w r w' :
  well_behaved (AUTOLINK_WEB_URL w) ->
  well_behaved (AUTOLINK_EMAIL_ADDRESS w) ->
  addAutoLinks fuel text mask w = Returned (Links r, w') ->
  Forall (fun a =>
            valid_span text a /\
            (gathered_by text (matcher (AUTOLINK_WEB_URL w))
               [str "http://"; str "https://"; str "rtsp://"]
               (Some sUrlMatchFilter) None a \/
             gathered_by text (matcher (AUTOLINK_EMAIL_ADDRESS w))
               [str "mailto:"] None None a)) r.
Proof.
  intros Hweb Hemail Hrun.
  apply addAutoLinks_Links_inv in Hrun as (_ & l1 & l2 & H1 & H2 & Hr).
  set (P := fun a =>
            valid_span text a /\
            (gathered_by text (matcher (AUTOLINK_WEB_URL w))
               [str "http://"; str "https://"; str "rtsp://"]
               (Some sUrlMatchFilter) None a \/
             gathered_by text (matcher (AUTOLINK_EMAIL_ADDRESS w))
               [str "mailto:"] None None a)).
  assert (Hl1 : Forall P l1).
  { destruct H1 as [->|(re & H1)]; [constructor|].
    apply gatherLinks_spec in H1 as (new & -> & Hall & _); [|assumption].
    simpl. eapply Forall_impl; [|exact Hall].
    intros a (Hg & _ & Hv). split; [assumption|now left]. }
  assert (Hl2 : Forall P l2).
  { destruct H2 as [->|(re & H2)]; [assumption|].
    apply gatherLinks_spec in H2 as (new & -> & Hall & _); [|assumption].
    apply Forall_app. split; [assumption|].
    eapply Forall_impl; [|exact Hall].
    intros a (Hg & _ & Hv). split; [assumption|now right]. }
  apply Forall_forall. intros a Ha.
  rewrite Forall_forall in Hl2. apply Hl2.
  eapply pruneOverlaps_In; eassumption.
Qed.

(** X9: with well-behaved patterns, every annotation of a list that
    [addAutoLinks] returns has a non-empty span inside the text
    ([0 <= start < end <= length]) and is made either of a web-URL
    match that [sUrlMatchFilter] accepted, with the URL [makeUrl]
    gives under the web schemes, or of an email match, with the URL
    under [mailto:]. *)
Theorem addAutoLinks_links_are_matches (fuel : nat) (text : jsstring)
    (mask : option Z) (w : World) (r : list LinkSpec) (w' : World) :
  well_behaved (AUTOLINK_WEB_URL w) ->
  well_behaved (AUTOLINK_EMAIL_ADDRESS w) ->
  addAutoLinks fuel text mask w = Returned (Links r, w') ->
  Forall (fun a =>
            valid_span text a /\
            (gathered_by text (matcher (AUTOLINK_WEB_URL w))
               [str "http://"; str "https://"; str "rtsp://"]
               (Some sUrlMatchFilter) None a \/
             gathered_by text (matcher (AUTOLINK_EMAIL_ADDRESS w))
               [str "mailto:"] None None a)) r.
Proof. apply addAutoLinks_gathered. Qed.



(** X11: a list that [addAutoLinks] returns is never empty (an empty
    result is reported as [false]), and it is ordered by [start]
    ascending, ties by [end] descending. *)
Theorem addAutoLinks_links_nonempty_sorted (fuel : nat) (text : jsstring)
    (mask : option Z) (w : World) (r : list LinkSpec) (w' : World) :
  addAutoLinks fuel text mask w = Returned (Links r, w') ->
  r <> [] /\ StronglySorted Prune.before r.
Proof.
  intros Hrun.
  apply addAutoLinks_Links_inv in Hrun as (Hne & _ & l2 & _ & _ & Hr).
  split; [exact Hne|].
  rewrite PruneFacts.pruneOverlaps_resolve in Hr. injection Hr as <-.
  apply PruneFacts.sweep_spec_sorted, PruneFacts.sort_sorted.
Qed.

(** X12: when the mask enables neither web URLs nor email addresses
    (bits 1 and 2 both clear: the mask 0, but also 4 or 8),
    [addAutoLinks] returns [false] without running a pattern, whatever
    the iteration budget. *)
Theorem addAutoLinks_no_kind_enabled (fuel : nat) (text : jsstring)
    (mask : Z) (w : World) :
  Z.land mask WEB_URLS = 0 -> Z.land mask EMAIL_ADDRESSES = 0 ->
  exists l,
    addAutoLinks fuel text (Some mask) w
      = Returned (NoneFound,
                  mkWorld (AUTOLINK_WEB_URL w) (AUTOLINK_EMAIL_ADDRESS w) l).
Proof.
  intros Hweb Hemail. unfold addAutoLinks.
  destruct (containsUnsupportedCharacters text (log w)) as [b l].
  exists l. destruct b; [reflexivity|].
  destruct (mask =? 0); [reflexivity|].
  rewrite Hweb, Hemail. reflexivity.
Qed.

(** *** [addLinks] *)


(** *** One pass and two passes *)

Lemma valid_span_positive s a : valid_span s a -> positive a.
Proof. unfold valid_span, positive. now intros (_ & H & _). Qed.


Lemma precedes_no_equal_length_overlap l a b :
  StronglySorted Prune.precedes l -> Forall positive l ->
  In a l -> In b l -> Prune.equal_length_overlap a b = false.
Proof.
  intros Hs Hpos Ha Hb.
  assert (Hpb : positive b) by (rewrite Forall_forall in Hpos; now apply Hpos).
  destruct (In_nth_error _ _ Ha) as (j & Hj).
  destruct (In_nth_error _ _ Hb) as (k & Hk).
  unfold Prune.equal_length_overlap, positive in *.
  destruct (Nat.lt_total j k) as [Hlt|[Heq|Hgt]].
  - pose proof (PruneFacts.StronglySorted_nth _ _ Hs j k a b Hlt Hj Hk) as H.
    unfold Prune.precedes in H.
    destruct (Z.ltb_spec (start b) (end_ a)); [lia|apply andb_false_r].
  - subst k. rewrite Hj in Hk. injection Hk as <-.
    destruct (Z.ltb_spec (start a) (start a)); [lia|].
    now rewrite andb_false_r.
  - pose proof (PruneFacts.StronglySorted_nth _ _ Hs k j b a Hgt Hk Hj) as H.
    unfold Prune.precedes in H.
    destruct (Z.ltb_spec (start a) (start b)); [lia|].
    now rewrite andb_false_r.
Qed.

Lemma no_equal_length_overlap_intro l :
  (forall a b, In a l -> In b l -> Prune.equal_length_overlap a b = false) ->
  Prune.no_equal_length_overlap l = true.
Proof.
  intros H. unfold Prune.no_equal_length_overlap.
  apply forallb_forall. intros a Ha. apply forallb_forall. intros b Hb.
  now rewrite H.
Qed.

(** The matches of one kind that a call gathered, those of the other
    kind, and the list that was pruned. *)
Lemma addAutoLinks_structure fuel text mask w r w' :
  well_behaved (AUTOLINK_WEB_URL w) ->
  well_behaved (AUTOLINK_EMAIL_ADDRESS w) ->
  addAutoLinks fuel text mask w = Returned (Links r, w') ->
  exists lw le,
    Prune.pruneOverlaps (lw ++ le) = Returned r /\
    Forall (fun a =>
              gathered_by text (matcher (AUTOLINK_WEB_URL w))
                [str "http://"; str "https://"; str "rtsp://"]
                (Some sUrlMatchFilter) None a /\ positive a) lw /\
    Forall (fun a =>
              gathered_by text (matcher (AUTOLINK_EMAIL_ADDRESS w))
                [str "mailto:"] None None a /\ positive a) le /\
    StronglySorted Prune.precedes lw /\ StronglySorted Prune.precedes le.
Proof.
  clear toLowerCase. intros Hweb Hemail Hrun.
  apply addAutoLinks_Links_inv in Hrun as (_ & l1 & l2 & H1 & H2 & Hr).
  assert (Hgather : forall links re schemes mf l,
            well_behaved re ->
            l = links \/
            (exists re', gatherLinks fuel links text re schemes mf None
                         = Returned (l, re')) ->
            exists new,
              l = links ++ new /\
              Forall (fun a => gathered_by text (matcher re) schemes mf None a /\
                               positive a) new /\
              StronglySorted Prune.precedes new).
  { intros links re schemes mf l Hwb [->|(re' & Hg)].
    - exists []. rewrite app_nil_r. repeat constructor.
    - apply gatherLinks_spec in Hg as (new & -> & Hall & Hsorted); [|assumption].
      exists new. repeat split; try assumption.
      eapply Forall_impl; [|exact Hall].
      intros a (Hg & _ & Hv). split; [assumption|].
      eapply valid_span_positive; eassumption. }
  destruct (Hgather [] (AUTOLINK_WEB_URL w) _ _ l1 Hweb H1)
    as (lw & -> & Hlw & Hsw).
  destruct (Hgather ([] ++ lw) (AUTOLINK_EMAIL_ADDRESS w) _ _ l2 Hemail H2)
    as (le & -> & Hle & Hse).
  exists lw, le. now repeat split.
Qed.

(** X20: with well-behaved patterns, when no web-URL match and email
    match of equal length overlap partially, no two annotations of a
    list that [addAutoLinks] returns have intersecting spans. *)
Theorem addAutoLinks_non_overlapping (fuel : nat) (text : jsstring)
    (mask : option Z) (w : World) (r : list LinkSpec) (w' : World) :
  well_behaved (AUTOLINK_WEB_URL w) ->
  well_behaved (AUTOLINK_EMAIL_ADDRESS w) ->
  (forall a b,
      gathered_by text (matcher (AUTOLINK_WEB_URL w))
        [str "http://"; str "https://"; str "rtsp://"]
        (Some sUrlMatchFilter) None a ->
      gathered_by text (matcher (AUTOLINK_EMAIL_ADDRESS w))
        [str "mailto:"] None None b ->
      Prune.equal_length_overlap a b = false /\
      Prune.equal_length_overlap b a = false) ->
  addAutoLinks fuel text mask w = Returned (Links r, w') ->
  Prune.non_overlapping r.
Proof.
  clear toLowerCase. intros Hweb Hemail Hcross Hrun.
  destruct (addAutoLinks_structure _ _ _ _ _ _ Hweb Hemail Hrun)
    as (lw & le & Hr & Hlw & Hle & Hsw & Hse).
  rewrite PruneFacts.pruneOverlaps_resolve in Hr. injection Hr as <-.
  apply PruneFacts.precedes_non_overlapping, PruneFacts.sweep_spec_sort_precedes.
  apply no_equal_length_overlap_intro. intros a b Ha Hb.
  assert (Hpw : Forall positive lw)
    by (eapply Forall_impl; [|exact Hlw]; simpl; tauto).
  assert (Hpe : Forall positive le)
    by (eapply Forall_impl; [|exact Hle]; simpl; tauto).
  rewrite Forall_forall in Hlw, Hle.
  apply in_app_or in Ha as [Ha|Ha]; apply in_app_or in Hb as [Hb|Hb].
  - apply (precedes_no_equal_length_overlap lw); assumption.
  - apply (Hcross a b); [now apply Hlw|now apply Hle].
  - apply (Hcross b a); [now apply Hlw|now apply Hle].
  - apply (precedes_no_equal_length_overlap le); assumption.
Qed.


(** A well-behaved pattern has no match in the empty text. *)
Lemma gatherLinks_empty_text fuel links re schemes mf tf :
  well_behaved re ->
  gatherLinks (S fuel) links [] re schemes mf tf
    = Returned (links, setLastIndex re 0).
Proof.
  intros Hwb. simpl. unfold exec.
  destruct (jslength [] <? Z.max 0 (lastIndex re)); [reflexivity|].
  destruct (matcher re [] (Z.max 0 (lastIndex re))) as [m|] eqn:Hm;
    [|reflexivity].
  destruct (Hwb [] _ m (Z.le_max_l _ _) Hm) as (Hk & Hpos & Hend).
  unfold jslength in Hend at 2. simpl in Hend. lia.
Qed.

(** X18: on the empty text, with well-behaved patterns and at least
    one loop iteration allowed, [addAutoLinks] returns [false] for
    every mask, and reports nothing. *)
Theorem addAutoLinks_empty_text (fuel : nat) (mask : option Z) (w : World) :
  well_behaved (AUTOLINK_WEB_URL w) ->
  well_behaved (AUTOLINK_EMAIL_ADDRESS w) ->
  (0 < fuel)%nat ->
  exists w',
    addAutoLinks fuel [] mask w = Returned (NoneFound, w') /\ log w' = log w.
Proof.
  intros Hweb Hemail Hfuel. destruct fuel as [|fuel]; [lia|].
  unfold addAutoLinks.
  rewrite containsUnsupportedCharacters_clean by reflexivity.
  destruct (_ =? 0); [now eexists|].
  cbn [log AUTOLINK_WEB_URL AUTOLINK_EMAIL_ADDRESS].
  destruct (negb (Z.land _ WEB_URLS =? 0)).
  - rewrite gatherLinks_empty_text by assumption.
    cbn [bind log AUTOLINK_WEB_URL AUTOLINK_EMAIL_ADDRESS].
    destruct (negb (Z.land _ EMAIL_ADDRESSES =? 0)).
    + rewrite gatherLinks_empty_text by assumption. now eexists.
    + now eexists.
  - cbn [bind log AUTOLINK_WEB_URL AUTOLINK_EMAIL_ADDRESS].
    destruct (negb (Z.land _ EMAIL_ADDRESSES =? 0)).
    + rewrite gatherLinks_empty_text by assumption. now eexists.
    + now eexists.
Qed.


End Platform.

Lemma addAutoLinks_empty_text_witness :
  exists w',
    addAutoLinks Examples.asciiCompare 1 [] None Examples.world
      = Returned (NoneFound, w') /\ log w' = log Examples.world.
Proof.
  apply (addAutoLinks_empty_text Examples.asciiCompare 1 None Examples.world
           (unitPattern_well_behaved 98) (unitPattern_well_behaved 64)).
  lia.
Defined.


Lemma unitPattern_match x s k m :
  matcher (Examples.unitPattern x) s k = Some m -> jslength (matched m) = 1.
Proof.
  simpl. destruct (indexOf (skipn (Z.to_nat k) s) x =? -1); [discriminate|].
  now intros [= <-].
Qed.

Lemma addAutoLinks_non_overlapping_witness :
  Prune.non_overlapping
    [mkLinkSpec (str "http://b") 1 2; mkLinkSpec (str "mailto:@") 2 3].
Proof.
  eapply (addAutoLinks_non_overlapping Examples.asciiCompare 5 (str "ab@b")
            None Examples.world).
  - apply (unitPattern_well_behaved 98).
  - apply (unitPattern_well_behaved 64).
  - intros a b (k & m & Hm & Hs & He & _) (k' & m' & Hm' & Hs' & He' & _).
    apply unitPattern_match in Hm, Hm'.
    unfold Prune.equal_length_overlap.
    split.
    + destruct (Z.ltb_spec (start a) (start b)), (Z.ltb_spec (start b) (end_ a));
        rewrite ?andb_false_r; try reflexivity; lia.
    + destruct (Z.ltb_spec (start b) (start a)), (Z.ltb_spec (start a) (end_ b));
        rewrite ?andb_false_r; try reflexivity; lia.
  - reflexivity.
Defined.


(** *** Concrete runs *)

Lemma gatherLinks_appends_matches_witness :
  exists new,
    gatherLinks Examples.asciiCompare 6 [Examples.span 7 9] (str "b a@b")
      (Examples.unitPattern 98) [str "x:"] (Some sUrlMatchFilter) None
      = Returned ([Examples.span 7 9] ++ new,
                  setLastIndex (Examples.unitPattern 98) 0) /\
    Forall (fun a =>
              gathered_by Examples.asciiCompare (str "b a@b")
                (matcher (Examples.unitPattern 98)) [str "x:"]
                (Some sUrlMatchFilter) None a /\
              valid_span (str "b a@b") a) new /\
    StronglySorted Prune.precedes new.
Proof.
  apply (gatherLinks_appends_matches Examples.asciiCompare 6 [Examples.span 7 9]
           (str "b a@b") (Examples.unitPattern 98) [str "x:"]
           (Some sUrlMatchFilter) None (unitPattern_well_behaved 98)).
  simpl. lia.
Defined.


Lemma addAutoLinks_links_are_matches_witness :
  Forall (fun a =>
            valid_span (str "ab@b") a /\
            (gathered_by Examples.asciiCompare (str "ab@b")
               (matcher (AUTOLINK_WEB_URL Examples.world))
               [str "http://"; str "https://"; str "rtsp://"]
               (Some sUrlMatchFilter) None a \/
             gathered_by Examples.asciiCompare (str "ab@b")
               (matcher (AUTOLINK_EMAIL_ADDRESS Examples.world))
               [str "mailto:"] None None a))
    [mkLinkSpec (str "http://b") 1 2; mkLinkSpec (str "mailto:@") 2 3].
Proof.
  eapply (addAutoLinks_links_are_matches Examples.asciiCompare 5 (str "ab@b")
            None Examples.world).
  - apply (unitPattern_well_behaved 98).
  - apply (unitPattern_well_behaved 64).
  - reflexivity.
Defined.


Lemma addAutoLinks_links_nonempty_sorted_witness :
  [mkLinkSpec (str "http://b") 1 2; mkLinkSpec (str "mailto:@") 2 3] <> [] /\
  StronglySorted Prune.before
    [mkLinkSpec (str "http://b") 1 2; mkLinkSpec (str "mailto:@") 2 3].
Proof.
  eapply (addAutoLinks_links_nonempty_sorted Examples.asciiCompare 5 (str "ab@b")
            None Examples.world).
  reflexivity.
Defined.

Lemma addAutoLinks_no_kind_enabled_witness :
  exists l,
    addAutoLinks Examples.asciiCompare 0 (str "ab@b") (Some 4) Examples.world
      = Returned (NoneFound,
                  mkWorld (AUTOLINK_WEB_URL Examples.world)
                          (AUTOLINK_EMAIL_ADDRESS Examples.world) l).
Proof.
  apply (addAutoLinks_no_kind_enabled Examples.asciiCompare 0 (str "ab@b") 4
           Examples.world); reflexivity.
Defined.


End LinkifyMore.
